(** * skitzo: chunking and retrieval pipeline

    A shallow embedding of the retrieval-augmented question-answering
    pipeline of [src/app]: the overlapping-window chunker of
    [document_processor.py], the similarity index and context retriever of
    [embedding_service.py], the answer generator of [gemini_service.py] and
    the orchestrator of [query_processor.py].

    Python values are modelled as follows.
    - [int] is [Z] (unbounded).
    - [str] is a list of Unicode code points, [list N]; string literals of
      the source are written with [lit].
    - A [dict] with string keys and scalar values is a [gmap string pyval].
    - An exception raised by a call is the [Raise] outcome of that call;
      the state a call leaves behind is returned next to its outcome. *)

From Stdlib Require Import ZArith NArith Lia String Ascii.
From stdpp Require Import gmap strings list pretty sorting.

#[local] Open Scope Z_scope.

(** ** Python strings *)

Abbreviation pystr := (list N).

Definition lit (s : string) : pystr :=
  N_of_ascii <$> list_ascii_of_string s.

Arguments lit : simpl never.

Definition space : N := 32%N.

(** [len(s)] *)
Definition len {A} (s : list A) : Z := Z.of_nat (length s).

(** [str.isspace] on one code point: the Unicode white-space characters. *)
Definition py_isspace (c : N) : bool :=
  (((9 <=? c) && (c <=? 13)) || ((28 <=? c) && (c <=? 32))
   || (c =? 133) || (c =? 160) || (c =? 5760)
   || ((8192 <=? c) && (c <=? 8202))
   || (c =? 8232) || (c =? 8233) || (c =? 8239) || (c =? 8287)
   || (c =? 12288))%N.

Fixpoint lstrip (s : pystr) : pystr :=
  match s with
  | [] => []
  | c :: s' => if py_isspace c then lstrip s' else s
  end.

Definition rstrip (s : pystr) : pystr := reverse (lstrip (reverse s)).

(** [s.strip()] *)
Definition strip (s : pystr) : pystr := rstrip (lstrip s).

(** Truth value of a string: [if s:] holds for the non-empty ones. *)
Definition truthy (s : pystr) : bool :=
  match s with [] => false | _ :: _ => true end.

(** Slice bounds: a negative bound counts from the end, and every bound is
    clipped to [0, len]. *)
Definition clip (n i : Z) : Z :=
  if i <? 0 then Z.max (i + n) 0 else Z.min i n.

(** [s[i:j]] *)
Definition slice {A} (s : list A) (i j : Z) : list A :=
  let a := clip (len s) i in
  let b := clip (len s) j in
  take (Z.to_nat (b - a)) (drop (Z.to_nat a) s).

(** [s.rfind(c, i, j)] for a one-character [c]: the highest index in the
    slice bounds that holds [c], or [-1]. The scan keeps the last match seen
    so far in [acc]. *)
Fixpoint rfind_scan (c : N) (s : pystr) (pos a b acc : Z) : Z :=
  match s with
  | [] => acc
  | x :: s' =>
      rfind_scan c s' (pos + 1) a b
        (if (a <=? pos) && (pos <? b) && (x =? c)%N then pos else acc)
  end.

Definition rfind (s : pystr) (c : N) (i j : Z) : Z :=
  rfind_scan c s 0 (clip (len s) i) (clip (len s) j) (-1).

(** [str(n)] for an [int]. *)
Definition str_int (n : Z) : pystr := lit (pretty n).

(** [", ".join(parts)] with separator [sep]. *)
Fixpoint join (sep : pystr) (parts : list pystr) : pystr :=
  match parts with
  | [] => []
  | [p] => p
  | p :: ps => p ++ sep ++ join sep ps
  end.

(** ** Outcomes of calls that may raise *)

Inductive outcome (A : Type) : Type :=
| Ok (a : A)
| Raise (msg : pystr).
Arguments Ok {A} a.
Arguments Raise {A} msg.

#[global] Instance outcome_ret : MRet outcome := fun _ a => Ok a.

(** Sequencing: the first [Raise] ends the computation. *)
#[global] Instance outcome_bind : MBind outcome := fun _ _ k m =>
  match m with
  | Ok a => k a
  | Raise e => Raise e
  end.

(** ** Chunks *)

Inductive pyval : Type :=
| PInt (z : Z)
| PStr (s : pystr).

Record DocumentChunk : Type := mkDocumentChunk {
  text : pystr;
  chunk_id : pystr;
  source_meta : gmap string pyval
}.

(** [source_meta[key]] when it holds an [int]. *)
Definition meta_int (c : DocumentChunk) (key : string) : option Z :=
  match source_meta c !! key with
  | Some (PInt z) => Some z
  | _ => None
  end.

(** ** The chunker: [DocumentProcessor._create_text_chunks] *)

Module DocumentProcessor.

Definition chunk_size : Z := 1000.
Definition overlap : Z := 200.

(** The state of the [while] loop: the cursor, the running index and the
    chunks emitted so far. *)
Record loop_state : Type := mkLoop {
  start : Z;
  chunk_index : Z;
  chunks : list DocumentChunk
}.

(** The window end of one iteration: [start + chunk_size], snapped back to
    the last space of its final [overlap] characters when the window stops
    before the end of the text. *)
Definition window_end (text : pystr) (start : Z) : Z :=
  let end_ := start + chunk_size in
  if end_ <? len text then
    let break_point := rfind text space (end_ - overlap) end_ in
    if break_point >? start then break_point else end_
  else end_.

Definition next_start (text : pystr) (end_ : Z) : Z :=
  if end_ <? len text then end_ - overlap else len text.

Definition loop_chunk (base_metadata : gmap string pyval)
    (chunk_text : pystr) (chunk_index start end_ : Z) : DocumentChunk :=
  {| text := chunk_text;
     chunk_id := lit "chunk_" ++ str_int chunk_index;
     source_meta :=
       <["end_char" := PInt end_]>
         (<["start_char" := PInt start]>
            (<["chunk_index" := PInt chunk_index]> base_metadata)) |}.

Definition loop_body (text : pystr) (base_metadata : gmap string pyval)
    (st : loop_state) : loop_state :=
  let end_ := window_end text (start st) in
  let chunk_text := strip (slice text (start st) end_) in
  if truthy chunk_text then
    {| start := next_start text end_;
       chunk_index := chunk_index st + 1;
       chunks := chunks st ++
                 [loop_chunk base_metadata chunk_text (chunk_index st)
                    (start st) end_] |}
  else
    {| start := next_start text end_;
       chunk_index := chunk_index st;
       chunks := chunks st |}.

(** [while start < len(text): ...], run for at most [fuel] iterations. *)
Fixpoint while_loop (fuel : nat) (text : pystr)
    (base_metadata : gmap string pyval) (st : loop_state)
    : option loop_state :=
  if start st <? len text then
    match fuel with
    | O => None
    | S fuel' => while_loop fuel' text base_metadata
                   (loop_body text base_metadata st)
    end
  else Some st.

(** [start = 0; chunk_index = 0] *)
Definition loop_init : loop_state :=
  {| start := 0; chunk_index := 0; chunks := [] |}.

Definition single_chunk (text : pystr) (base_metadata : gmap string pyval)
    : DocumentChunk :=
  {| text := text;
     chunk_id := lit "chunk_0";
     source_meta := <["chunk_index" := PInt 0]> base_metadata |}.

Definition _create_text_chunks (text : pystr)
    (base_metadata : gmap string pyval) : option (list DocumentChunk) :=
  if len text <=? chunk_size then
    Some [single_chunk text base_metadata]
  else
    chunks <$> while_loop (length text) text base_metadata loop_init.


(** [_process_text], from the point where the file has been read into
    [text]. *)
Definition _process_text (text source_url : pystr)
    : option (list DocumentChunk) :=
  if truthy (strip text) then
    _create_text_chunks text
      (<["document_type" := PStr (lit "text")]>
         (<["source_url" := PStr source_url]> ∅))
  else Some [].

(** The loop state after [n] iterations. *)
Definition iterate (text : pystr) (base_metadata : gmap string pyval)
    (n : nat) : loop_state :=
  Nat.iter n (loop_body text base_metadata) loop_init.

End DocumentProcessor.

(** ** External collaborators

    The embedding model, the FAISS index, the completion model and the
    document download are libraries and network services. Their calls are
    the fields of [Backend]; each may raise. Floating-point scores are kept
    abstract: [score] with the comparison [>=] and the [.2f] rendering. *)

Class Backend : Type := {
  vec : Type;
  score : Type;
  faiss_index : Type;
  (** [SentenceTransformer.encode(texts, normalize_embeddings=True)] *)
  encode : list pystr -> outcome (list vec);
  (** [faiss.IndexFlatIP(dim)], [index.reset()], [index.add(embeddings)] *)
  index_new : faiss_index;
  index_reset : faiss_index -> faiss_index;
  index_add : faiss_index -> list vec -> outcome faiss_index;
  (** [index.search(queries, k)]: one row of scores and one row of
      positions per query; a position is [-1] where the index holds fewer
      than [k] vectors. *)
  index_search :
    faiss_index -> list vec -> Z -> outcome (list (list score) * list (list Z));
  (** [a >= b] on scores *)
  score_ge : score -> score -> bool;
  (** the default [score_threshold = 0.5] *)
  default_score_threshold : score;
  (** [f"{score:.2f}"] *)
  format_2f : score -> pystr;
  (** [client.generate_content(prompt).text] *)
  generate_content : pystr -> outcome pystr;
  (** [DocumentProcessor.process_document_from_url]: download, parse and
      chunk. *)
  process_document_from_url : pystr -> outcome (list DocumentChunk)
}.

(** What the pipeline relies on from [index.search]: for each query a row
    of [k] scores, ranked from the highest down. *)
Class RankedSearch (B : Backend) : Prop := {
  search_row_length : forall idx qs k S I row,
    index_search idx qs k = Ok (S, I) -> row ∈ S -> len row = k;
  search_row_ranked : forall idx qs k S I row,
    index_search idx qs k = Ok (S, I) -> row ∈ S ->
    StronglySorted (fun a b => score_ge a b = true) row
}.

Definition nl : pystr := [10%N].

(** [l[i]] on a Python list: a negative index counts from the end, an index
    out of range raises [IndexError]. *)
Definition py_index {A} (l : list A) (i : Z) : outcome A :=
  let j := if i <? 0 then i + len l else i in
  if j <? 0 then Raise (lit "list index out of range")
  else match l !! Z.to_nat j with
       | Some x => Ok x
       | None => Raise (lit "list index out of range")
       end.

(** ** The similarity index: [EmbeddingService] *)

Module EmbeddingService.
Section WithBackend.
Context {B : Backend}.

(** The dict of [DocumentChunk.to_dict], with the key [similarity_score]
    that [search_similar] adds to its copy. *)
Record chunk_data : Type := mkChunkData {
  d_text : pystr;
  d_chunk_id : pystr;
  d_source_meta : gmap string pyval;
  similarity_score : option score
}.

Definition to_dict (chunk : DocumentChunk) : chunk_data :=
  {| d_text := text chunk;
     d_chunk_id := chunk_id chunk;
     d_source_meta := source_meta chunk;
     similarity_score := None |}.

(** [chunk_data["similarity_score"] = float(score)] *)
Definition set_similarity_score (d : chunk_data) (sc : score) : chunk_data :=
  {| d_text := d_text d;
     d_chunk_id := d_chunk_id d;
     d_source_meta := d_source_meta d;
     similarity_score := Some sc |}.

Record service : Type := mkService {
  index : faiss_index;
  chunks_metadata : list chunk_data;
  is_indexed : bool
}.

(** [__init__] *)
Definition init : service :=
  {| index := index_new; chunks_metadata := []; is_indexed := false |}.

Definition embed_texts (texts : list pystr) : outcome (list vec) :=
  encode texts.

(** [index_chunks]: the service it leaves behind and whether it raised. *)
Definition index_chunks (self : service) (chunks : list DocumentChunk)
    : service * outcome unit :=
  let cleared :=
    {| index := index_reset (index self);
       chunks_metadata := [];
       is_indexed := is_indexed self |} in
  let texts := text <$> chunks in
  match embed_texts texts with
  | Raise e => (cleared, Raise e)
  | Ok embeddings =>
      match index_add (index cleared) embeddings with
      | Raise e => (cleared, Raise e)
      | Ok index' =>
          ({| index := index';
              chunks_metadata := to_dict <$> chunks;
              is_indexed := true |}, Ok tt)
      end
  end.

(** The [for score, idx in zip(scores[0], indices[0])] loop. *)
Fixpoint search_loop (metadata : list chunk_data) (score_threshold : score)
    (pairs : list (score * Z)) (results : list chunk_data)
    : outcome (list chunk_data) :=
  match pairs with
  | [] => Ok results
  | (sc, idx) :: pairs' =>
      if negb (idx =? -1) && score_ge sc score_threshold then
        chunk ← py_index metadata idx;
        search_loop metadata score_threshold pairs'
          (results ++ [set_similarity_score chunk sc])
      else search_loop metadata score_threshold pairs' results
  end.

Definition search_similar (self : service) (query : pystr) (top_k : Z)
    (score_threshold : score) : outcome (list chunk_data) :=
  if negb (is_indexed self) then Ok []
  else
    query_embedding ← embed_texts [query];
    '(scores, indices) ← index_search (index self) query_embedding top_k;
    scores0 ← py_index scores 0;
    indices0 ← py_index indices 0;
    search_loop (chunks_metadata self) score_threshold
      (zip scores0 indices0) [].

(** One labelled block of the context. [chunk.get("similarity_score", 0)]
    is the integer [0] when the key is absent. *)
Definition context_block (i : Z) (chunk : chunk_data) : pystr :=
  let text := d_text chunk in
  let sc := match similarity_score chunk with
            | Some sc => format_2f sc
            | None => lit "0.00"
            end in
  lit "[Context " ++ str_int i ++ lit "] (Score: " ++ sc ++ lit ")"
    ++ nl ++ text.

(** The [for i, chunk in enumerate(similar_chunks, 1)] loop. *)
Fixpoint context_loop (similar_chunks : list chunk_data) (i : Z)
    (context_parts : list pystr) : list pystr :=
  match similar_chunks with
  | [] => context_parts
  | chunk :: rest =>
      context_loop rest (i + 1) (context_parts ++ [context_block i chunk])
  end.

Definition get_context_for_query (self : service) (query : pystr)
    (max_chunks : Z) : outcome pystr :=
  similar_chunks ← search_similar self query max_chunks
                     default_score_threshold;
  Ok (join (nl ++ nl) (context_loop similar_chunks 1 [])).

End WithBackend.
End EmbeddingService.

(** ** Concurrent dispatch: [asyncio.gather]

    [gather] with [return_exceptions=True] keeps one slot per task, in
    argument order. [completion] lists the tasks in the order in which they
    finish; each finishing task stores its outcome in its own slot. The
    call delivers the slots once every one is filled, and fails when the
    dispatch left a task without a result. *)

Definition complete_task {A} (tasks : list (outcome A))
    (slots : list (option (outcome A))) (i : nat)
    : list (option (outcome A)) :=
  match tasks !! i with
  | Some r => <[i := Some r]> slots
  | None => slots
  end.

Definition gather {A} (tasks : list (outcome A)) (completion : list nat)
    : outcome (list (outcome A)) :=
  let slots :=
    foldl (complete_task tasks) (replicate (length tasks) None) completion in
  match mapM id slots with
  | Some results => Ok results
  | None => Raise (lit "gather: a task was not run to completion")
  end.

(** ** The answer generator: [GeminiService] *)

Module GeminiService.
Section WithBackend.
Context {B : Backend}.

Definition system_prompt : pystr :=
  join nl
    [lit "You are an expert assistant specializing in insurance, legal, HR, and compliance document analysis.";
     [];
     lit "Your task is to provide accurate, helpful answers based solely on the provided context. Follow these guidelines:";
     [];
     lit "1. Answer based only on the provided context";
     lit "2. If the context doesn't contain enough information, say so clearly";
     lit "3. Be specific and cite relevant details from the context";
     lit "4. For insurance/legal queries, be precise about terms, conditions, and limitations";
     lit "5. If asked about specific clauses, quote them directly when possible";
     lit "6. Maintain a professional, helpful tone";
     lit "7. Keep answers concise but comprehensive"].

Definition user_prompt (query context : pystr) : pystr :=
  join nl
    [lit "Context from retrieved documents:";
     context;
     [];
     lit "Question: " ++ query;
     [];
     lit "Please provide a comprehensive answer based on the context above."].

Definition apology : pystr :=
  lit "I apologize, but I encountered an error while processing your query: ".

(** [f"{system_prompt}\n\n{user_prompt}"] *)
Definition full_prompt (query context : pystr) : pystr :=
  system_prompt ++ nl ++ nl ++ user_prompt query context.

Definition generate_answer (query context : pystr) : outcome pystr :=
  match generate_content (full_prompt query context) with
  | Ok response_text => Ok (strip response_text)
  | Raise e => Ok (apology ++ e)
  end.

(** [isinstance(result, Exception)] on one gathered result. *)
Definition collect_answer (result : outcome pystr) : pystr :=
  match result with
  | Raise e => lit "Error processing query: " ++ e
  | Ok answer => answer
  end.

Definition generate_batch_answers (queries contexts : list pystr)
    (completion : list nat) : outcome (list pystr) :=
  let tasks :=
    (fun qc => generate_answer qc.1 qc.2) <$> zip queries contexts in
  match gather tasks completion with
  | Ok results => Ok (collect_answer <$> results)
  | Raise e =>
      Ok (replicate (length queries) (lit "Error processing queries: " ++ e))
  end.

End WithBackend.
End GeminiService.

(** ** The orchestrator: [QueryProcessor] *)

Module QueryProcessor.
Section WithBackend.
Context {B : Backend}.

Definition max_context_chunks : Z := 3.

Definition _process_document (document_url : pystr)
    : outcome (list DocumentChunk) :=
  process_document_from_url document_url.

Definition _index_chunks (es : EmbeddingService.service)
    (chunks : list DocumentChunk) : EmbeddingService.service * outcome unit :=
  EmbeddingService.index_chunks es chunks.

(** The [for question in questions] loop that collects the contexts. *)
Fixpoint retrieve_contexts (es : EmbeddingService.service)
    (questions : list pystr) (contexts : list pystr)
    : outcome (list pystr) :=
  match questions with
  | [] => Ok contexts
  | question :: rest =>
      context ← EmbeddingService.get_context_for_query es question
                  max_context_chunks;
      retrieve_contexts es rest (contexts ++ [context])
  end.

Definition _process_questions_with_gemini (es : EmbeddingService.service)
    (questions : list pystr) (completion : list nat)
    : outcome (list pystr) :=
  contexts ← retrieve_contexts es questions [];
  GeminiService.generate_batch_answers questions contexts completion.

Definition failed_request (e : pystr) : pystr :=
  lit "Failed to process request: " ++ e.

(** [process_request]: the embedding service it leaves behind and the
    answers, or the exception it raises. *)
Definition process_request (es : EmbeddingService.service)
    (document_url : pystr) (questions : list pystr) (completion : list nat)
    : EmbeddingService.service * outcome (list pystr) :=
  match _process_document document_url with
  | Raise e => (es, Raise (failed_request e))
  | Ok chunks =>
      match _index_chunks es chunks with
      | (es', Raise e) => (es', Raise (failed_request e))
      | (es', Ok _) =>
          match _process_questions_with_gemini es' questions completion with
          | Raise e => (es', Raise (failed_request e))
          | Ok answers => (es', Ok answers)
          end
      end
  end.

End WithBackend.
End QueryProcessor.

(** ** A sample backend

    A small deterministic stand-in for the collaborators, on which the
    pipeline can be run: a text is embedded as its length and an empty text
    is refused; scores are integers counted in hundredths; every stored
    vector is a hit of score 1.00; a prompt that holds a question mark is
    refused by the completion model, any other prompt is echoed. *)

Module SampleBackend.

Definition embed_lengths (texts : list pystr) : outcome (list Z) :=
  if forallb truthy texts then Ok (len <$> texts)
  else Raise (lit "cannot embed an empty text").

Definition positions (stored k : nat) : list Z :=
  (Z.of_nat <$> seq 0 (Nat.min stored k)) ++ replicate (k - stored) (-1).

Definition search (idx qs : list Z) (k : Z)
    : outcome (list (list Z) * list (list Z)) :=
  if k <=? 0 then Raise (lit "k must be positive")
  else Ok ((fun _ => replicate (Z.to_nat k) 100) <$> qs,
           (fun _ => positions (length idx) (Z.to_nat k)) <$> qs).

Definition hundredths (sc : Z) : pystr :=
  str_int (sc / 100) ++ lit "." ++ str_int (sc mod 100 / 10)
    ++ str_int (sc mod 10).

Definition echo (prompt : pystr) : outcome pystr :=
  if existsb (N.eqb 63) prompt then Raise (lit "blocked prompt")
  else Ok prompt.

Definition document : pystr := lit "Clause 1. The policy covers fire.".

Definition fetch (url : pystr)
    : outcome (list DocumentChunk) :=
  match DocumentProcessor._process_text document url with
  | Some chunks => if truthy url then Ok chunks
                   else Raise (lit "Failed to process document: no URL")
  | None => Raise (lit "Failed to process document")
  end.

Definition backend : Backend :=
  {| vec := Z;
     score := Z;
     faiss_index := list Z;
     encode := embed_lengths;
     index_new := [];
     index_reset := fun _ => [];
     index_add := fun idx embeddings => Ok (idx ++ embeddings);
     index_search := search;
     score_ge := fun a b => b <=? a;
     default_score_threshold := 50;
     format_2f := hundredths;
     generate_content := echo;
     process_document_from_url := fetch |}.

End SampleBackend.

(** * Properties *)

(** ** Strings *)

Lemma len_nonneg {A} (s : list A) : 0 <= len s.
Proof. unfold len. lia. Qed.

Lemma clip_inside n i : 0 <= i <= n -> clip n i = i.
Proof. unfold clip. intros H. destruct (Z.ltb_spec i 0); lia. Qed.

Lemma lstrip_suffix s : exists ws, s = ws ++ lstrip s.
Proof.
  induction s as [|c s [ws IH]]; simpl.
  - by exists [].
  - destruct (py_isspace c).
    + exists (c :: ws). simpl. by f_equal.
    + by exists [].
Qed.

Lemma lstrip_head s c : head (lstrip s) = Some c -> py_isspace c = false.
Proof.
  induction s as [|x s IH]; simpl; [done|].
  destruct (py_isspace x) eqn:E; [done|].
  simpl. intros [= ->]. done.
Qed.

Lemma rstrip_prefix s : exists ws, s = rstrip s ++ ws.
Proof.
  unfold rstrip. destruct (lstrip_suffix (reverse s)) as [ws E].
  exists (reverse ws). rewrite <- reverse_app, <- E.
  by rewrite reverse_involutive.
Qed.

Lemma rstrip_last s c : last (rstrip s) = Some c -> py_isspace c = false.
Proof.
  unfold rstrip. rewrite last_reverse. apply lstrip_head.
Qed.

(** A string is trimmed when neither end is a white-space character. *)
Definition trimmed (s : pystr) : Prop :=
  (forall c, head s = Some c -> py_isspace c = false) /\
  (forall c, last s = Some c -> py_isspace c = false).

Lemma strip_trimmed s : trimmed (strip s).
Proof.
  unfold strip. split; intros c Hc.
  - destruct (rstrip_prefix (lstrip s)) as [ws E].
    apply (lstrip_head s). rewrite E.
    destruct (rstrip (lstrip s)); [done|]. exact Hc.
  - by apply rstrip_last in Hc.
Qed.

Lemma truthy_nonempty s : truthy s = true <-> s <> [].
Proof. destruct s; simpl; split; by intros. Qed.

(** [rfind_scan] returns the accumulator when the scanned part holds no
    match inside the bounds, and the last match otherwise. *)
Lemma rfind_scan_spec c s : forall pos a b acc,
  let r := rfind_scan c s pos a b acc in
  (r = acc /\
   forall k, s !! k = Some c -> ~ (a <= pos + Z.of_nat k < b)) \/
  (pos <= r < pos + len s /\ a <= r < b /\
   s !! Z.to_nat (r - pos) = Some c /\
   forall k, s !! k = Some c -> r < pos + Z.of_nat k ->
             ~ (a <= pos + Z.of_nat k < b)).
Proof.
  induction s as [|x s IH]; intros pos a b acc; simpl.
  - left. split; [done|]. intros k Hk. by rewrite lookup_nil in Hk.
  - set (hit := (a <=? pos) && (pos <? b) && (x =? c)%N).
    specialize (IH (pos + 1) a b (if hit then pos else acc)).
    cbv zeta in IH. unfold len in *. simpl length.
    destruct IH as [[Hr Hno] | (Hrange & Hab & Hat & Hlast)].
    + destruct hit eqn:Hhit.
      * right. subst hit.
        apply andb_prop in Hhit as [Hhit Hx].
        apply andb_prop in Hhit as [Ha Hb].
        apply N.eqb_eq in Hx. subst x.
        rewrite Hr. replace (pos - pos) with 0 by lia.
        repeat split; try lia.
        intros [|k] Hk Hlt; [lia|]. simpl in Hk.
        specialize (Hno k Hk). lia.
      * left. split; [done|].
        intros [|k] Hk.
        -- simpl in Hk. injection Hk as ->. subst hit.
           rewrite N.eqb_refl, andb_true_r in Hhit.
           apply andb_false_iff in Hhit as [H|H].
           ++ apply Z.leb_gt in H. lia.
           ++ apply Z.ltb_ge in H. lia.
        -- simpl in Hk. specialize (Hno k Hk). lia.
    + right. repeat split; try lia.
      * replace (Z.to_nat (rfind_scan c s (pos + 1) a b
                  (if hit then pos else acc) - pos))
          with (S (Z.to_nat (rfind_scan c s (pos + 1) a b
                  (if hit then pos else acc) - (pos + 1)))) by lia.
        exact Hat.
      * intros [|k] Hk Hlt; [lia|]. simpl in Hk.
        specialize (Hlast k Hk). lia.
Qed.

(** [p] is the last space of [text] in the positions [lo <= p < hi]. *)
Definition last_space_in (text : pystr) (lo hi p : Z) : Prop :=
  lo <= p < hi /\ text !! Z.to_nat p = Some space /\
  forall q, p < q < hi -> text !! Z.to_nat q <> Some space.

Lemma rfind_spec (text : pystr) (i j : Z) :
  0 <= i -> i <= j -> j <= len text ->
  let r := rfind text space i j in
  (r = -1 /\ forall q, i <= q < j -> text !! Z.to_nat q <> Some space) \/
  last_space_in text i j r.
Proof.
  intros Hi Hij Hj. unfold rfind.
  rewrite !clip_inside by lia.
  destruct (rfind_scan_spec space text 0 i j (-1))
    as [[Hr Hno] | (Hrange & Hab & Hat & Hlast)].
  - left. split; [done|]. intros q Hq Hsp.
    apply (Hno (Z.to_nat q) Hsp). lia.
  - right. split; [done|]. split.
    + by rewrite Z.sub_0_r in Hat.
    + intros q Hq Hsp. apply (Hlast (Z.to_nat q) Hsp); lia.
Qed.

(** ** The chunker *)

Module ChunkerProofs.
Import DocumentProcessor.

Section Windows.
Variable txt : pystr.
Variable base_metadata : gmap string pyval.

Lemma window_end_unsnapped start :
  len txt <= start + chunk_size ->
  window_end txt start = start + chunk_size.
Proof.
  intros H. unfold window_end.
  destruct (Z.ltb_spec (start + chunk_size) (len txt)); [lia|done].
Qed.

(** Before the end of the txt the window end is the last space of the
    final [overlap] positions, or the tentative end when there is none. *)
Lemma window_end_cases start :
  0 <= start -> start + chunk_size < len txt ->
  (window_end txt start = start + chunk_size /\
   forall q, start + chunk_size - overlap <= q < start + chunk_size ->
             txt !! Z.to_nat q <> Some space) \/
  last_space_in txt (start + chunk_size - overlap) (start + chunk_size)
    (window_end txt start).
Proof.
  intros H0 Hlt. unfold window_end.
  destruct (Z.ltb_spec (start + chunk_size) (len txt)); [|lia].
  destruct (rfind_spec txt (start + chunk_size - overlap)
              (start + chunk_size)) as [[Hr Hno] | Hlast];
    try (unfold chunk_size, overlap in *; lia).
  - left. rewrite Hr.
    destruct (Z.gtb_spec (-1) start); [lia|]. done.
  - right.
    destruct (Z.gtb_spec
      (rfind txt space (start + chunk_size - overlap) (start + chunk_size))
      start) as [|Hle]; [done|].
    destruct Hlast as [Hrange _].
    unfold chunk_size, overlap in *. lia.
Qed.

Lemma window_end_bounds start :
  0 <= start ->
  start + chunk_size - overlap <= window_end txt start <= start + chunk_size.
Proof.
  intros H0.
  destruct (Z.lt_ge_cases (start + chunk_size) (len txt)) as [Hlt|Hge].
  - destruct (window_end_cases start H0 Hlt) as [[-> _] | [Hr _]];
      unfold chunk_size, overlap in *; lia.
  - rewrite window_end_unsnapped by lia. unfold chunk_size, overlap. lia.
Qed.

Lemma window_end_before_end start :
  0 <= start -> start + chunk_size < len txt ->
  window_end txt start < len txt.
Proof. intros H0 Hlt. pose proof (window_end_bounds start H0). lia. Qed.

Lemma next_start_cases end_ :
  (end_ < len txt /\ next_start txt end_ = end_ - overlap) \/
  (len txt <= end_ /\ next_start txt end_ = len txt).
Proof.
  unfold next_start. destruct (Z.ltb_spec end_ (len txt)); [left|right]; done.
Qed.

Lemma loop_body_start st :
  start (loop_body txt base_metadata st) =
  next_start txt (window_end txt (start st)).
Proof. unfold loop_body. by destruct (truthy _). Qed.

(** One iteration moves the cursor to the end of the txt or at least
    [chunk_size - 2 * overlap] characters forward, and never past the end. *)
Lemma loop_body_progress st :
  0 <= start st < len txt ->
  let st' := loop_body txt base_metadata st in
  (start st' = len txt \/
   start st + (chunk_size - 2 * overlap) <= start st') /\
  start st < start st' <= len txt.
Proof.
  intros H0. cbv zeta. rewrite loop_body_start.
  pose proof (window_end_bounds (start st) (proj1 H0)) as Hb.
  destruct (next_start_cases (window_end txt (start st)))
    as [[Hlt ->] | [Hge ->]];
    unfold chunk_size, overlap in *; lia.
Qed.

Lemma iterate_succ n :
  iterate txt base_metadata (S n) =
  loop_body txt base_metadata (iterate txt base_metadata n).
Proof. reflexivity. Qed.

(** The cursor stays inside the txt on every iteration. *)
Lemma iterate_start_range n :
  0 <= start (iterate txt base_metadata n) <= Z.max 0 (len txt).
Proof.
  pose proof (len_nonneg txt) as Hlen.
  induction n as [|n IH].
  - simpl. lia.
  - rewrite iterate_succ.
    destruct (Z.lt_ge_cases (start (iterate txt base_metadata n)) (len txt))
      as [Hlt|Hge].
    + pose proof (loop_body_progress (iterate txt base_metadata n)
                    (conj (proj1 IH) Hlt)) as [_ H]. lia.
    + rewrite loop_body_start.
      pose proof (window_end_bounds _ (proj1 IH)) as Hb.
      destruct (next_start_cases
                  (window_end txt (start (iterate txt base_metadata n))))
        as [[Hlt ->] | [_ ->]]; unfold chunk_size, overlap in *; lia.
Qed.

(** The loop finishes within [fuel] iterations when the cursor is no more
    than [fuel] characters from the end. *)
Lemma while_loop_terminates fuel : forall st,
  0 <= start st ->
  len txt - start st <= Z.of_nat fuel ->
  exists st', while_loop fuel txt base_metadata st = Some st' /\
              len txt <= start st'.
Proof.
  induction fuel as [|fuel IH]; intros st H0 Hfuel; simpl.
  - destruct (Z.ltb_spec (start st) (len txt)); [lia|]. by exists st.
  - destruct (Z.ltb_spec (start st) (len txt)) as [Hlt|Hge];
      [|by exists st].
    pose proof (loop_body_progress st (conj H0 Hlt)) as [_ Hp].
    apply IH; lia.
Qed.

(** More fuel than needed does not change the result. *)
Lemma while_loop_more_fuel fuel : forall st st' extra,
  while_loop fuel txt base_metadata st = Some st' ->
  while_loop (fuel + extra) txt base_metadata st = Some st'.
Proof.
  induction fuel as [|fuel IH]; intros st st' extra; simpl.
  - destruct extra; simpl; destruct (start st <? len txt); done.
  - destruct (start st <? len txt); [apply IH|done].
Qed.

(** A finished loop is a finite number of iterations of its body, all but
    the last state with the cursor before the end. *)
Lemma while_loop_iter fuel : forall st st',
  while_loop fuel txt base_metadata st = Some st' ->
  exists n, st' = Nat.iter n (loop_body txt base_metadata) st /\
            len txt <= start st' /\
            forall m, (m < n)%nat ->
              start (Nat.iter m (loop_body txt base_metadata) st) < len txt.
Proof.
  induction fuel as [|fuel IH]; intros st st'; simpl;
    destruct (Z.ltb_spec (start st) (len txt)) as [Hlt|Hge]; try done.
  - intros [= <-]. exists 0%nat. simpl. split; [done|]. split; [done|]. lia.
  - intros H. destruct (IH _ _ H) as (n & Hn & Hend & Hbefore).
    exists (S n). rewrite Nat.iter_succ_r. split; [done|]. split; [done|].
    intros [|m] Hm; [done|]. rewrite Nat.iter_succ_r. apply Hbefore. lia.
  - intros [= <-]. exists 0%nat. simpl. split; [done|]. split; [done|]. lia.
Qed.

Lemma create_text_chunks_total :
  exists cs, _create_text_chunks txt base_metadata = Some cs.
Proof.
  unfold _create_text_chunks.
  destruct (len txt <=? chunk_size); [by eexists|].
  destruct (while_loop_terminates (length txt) loop_init)
    as (st' & -> & _); simpl; unfold len; try lia.
  by eexists.
Qed.

(** The chunks of a long txt are those of the state in which the loop
    stops. *)
Lemma create_text_chunks_long :
  chunk_size < len txt ->
  exists n,
    _create_text_chunks txt base_metadata =
      Some (chunks (iterate txt base_metadata n)) /\
    len txt <= start (iterate txt base_metadata n) /\
    forall m, (m < n)%nat ->
      start (iterate txt base_metadata m) < len txt.
Proof.
  intros Hlong. unfold _create_text_chunks.
  destruct (Z.leb_spec (len txt) chunk_size); [lia|].
  destruct (while_loop_terminates (length txt) loop_init)
    as (st' & Hrun & _); simpl; unfold len; try lia.
  rewrite Hrun. simpl.
  destruct (while_loop_iter _ _ _ Hrun) as (n & -> & Hend & Hbefore).
  exists n. done.
Qed.

(** *** Metadata of the emitted chunks *)

Lemma loop_chunk_meta t i s e :
  meta_int (loop_chunk base_metadata t i s e) "chunk_index" = Some i /\
  meta_int (loop_chunk base_metadata t i s e) "start_char" = Some s /\
  meta_int (loop_chunk base_metadata t i s e) "end_char" = Some e.
Proof.
  unfold meta_int, loop_chunk. simpl.
  repeat split.
  - rewrite lookup_insert_ne by done. rewrite lookup_insert_ne by done.
    by rewrite lookup_insert_eq.
  - rewrite lookup_insert_ne by done. by rewrite lookup_insert_eq.
  - by rewrite lookup_insert_eq.
Qed.

(** The distance between the end of one emitted chunk and the start of the
    next: exactly [overlap] when [exact], at most [overlap] otherwise. *)
Definition gap_ok (exact : bool) (e s' : Z) : Prop :=
  if exact then s' = e - overlap else e - overlap <= s'.

(** The window of the iteration that starts in state [st] holds a
    character that is not white space. *)
Definition window_nonblank (st : loop_state) : Prop :=
  truthy (strip (slice txt (start st) (window_end txt (start st)))) = true.

Record chunks_inv (exact : bool) (st : loop_state) : Prop := {
  inv_start : 0 <= start st;
  inv_index : chunk_index st = len (chunks st);
  inv_chunk : forall i c, chunks st !! i = Some c ->
    meta_int c "chunk_index" = Some (Z.of_nat i) /\
    chunk_id c = lit "chunk_" ++ str_int (Z.of_nat i) /\
    text c <> [] /\ trimmed (text c) /\
    exists s e, meta_int c "start_char" = Some s /\
                meta_int c "end_char" = Some e;
  inv_pair : forall i c c',
    chunks st !! i = Some c -> chunks st !! S i = Some c' ->
    exists e s', meta_int c "end_char" = Some e /\
                 meta_int c' "start_char" = Some s' /\ gap_ok exact e s';
  inv_last : forall c, last (chunks st) = Some c ->
    exists e, meta_int c "end_char" = Some e /\
              (gap_ok exact e (start st) \/ len txt <= start st)
}.

Lemma chunks_inv_init exact : chunks_inv exact loop_init.
Proof. split; simpl; try done. Qed.

Lemma chunks_inv_body exact st :
  chunks_inv exact st ->
  start st < len txt ->
  (exact = true -> window_nonblank st) ->
  chunks_inv exact (loop_body txt base_metadata st).
Proof.
  intros [H0 Hidx Hchunk Hpair Hlast] Hlt Hexact.
  pose proof (loop_body_progress st (conj H0 Hlt)) as [_ Hprog].
  unfold window_nonblank in Hexact.
  unfold loop_body in *.
  set (end_ := window_end txt (start st)) in *.
  set (chunk_text := strip (slice txt (start st) end_)) in *.
  destruct (truthy chunk_text) eqn:Htruthy; simpl in *.
  - set (new := loop_chunk base_metadata chunk_text (chunk_index st)
                  (start st) end_).
    destruct (loop_chunk_meta chunk_text (chunk_index st) (start st) end_)
      as (Mi & Ms & Me). fold new in Mi, Ms, Me.
    split; simpl.
    + lia.
    + unfold len in *. rewrite length_app. simpl. lia.
    + intros i c Hc. apply lookup_app_Some in Hc as [Hc | [Hge Hc]].
      * by apply Hchunk.
      * apply list_lookup_singleton_Some in Hc as [Hi <-].
        assert (Z.of_nat i = chunk_index st) as ->
          by (unfold len in Hidx; lia).
        split; [done|]. split; [done|].
        split; [by apply truthy_nonempty|].
        split; [apply strip_trimmed|]. by exists (start st), end_.
    + intros i c c' Hc Hc'.
      apply lookup_app_Some in Hc' as [Hc' | [Hge Hc']].
      * apply (Hpair i c c'); [|done].
        apply lookup_app_Some in Hc as [Hc | [Hge _]]; [done|].
        apply lookup_lt_Some in Hc'. lia.
      * apply list_lookup_singleton_Some in Hc' as [Hi <-].
        assert (length (chunks st) = S i) as Hlen by lia.
        rewrite lookup_app_l in Hc by lia.
        assert (last (chunks st) = Some c) as Hl.
        { rewrite last_lookup, Hlen. exact Hc. }
        destruct (Hlast c Hl) as (e & He & [Hgap | Hend]); [|lia].
        by exists e, (start st).
    + intros c Hc. rewrite last_snoc in Hc. injection Hc as <-.
      exists end_. split; [done|].
      destruct (next_start_cases end_) as [[_ Hn] | [_ Hn]]; rewrite Hn.
      * left. unfold gap_ok. destruct exact; lia.
      * right. lia.
  - split; simpl; try done.
    + lia.
    + intros c Hc. destruct (Hlast c Hc) as (e & He & [Hgap | Hend]).
      * exists e. split; [done|].
        destruct exact; [by specialize (Hexact eq_refl)|].
        left. unfold gap_ok in *. lia.
      * exists e. split; [done|]. right. lia.
Qed.

Lemma iterate_inv exact n :
  (forall m, (m < n)%nat -> start (iterate txt base_metadata m) < len txt) ->
  (exact = true -> forall m, (m < n)%nat ->
     window_nonblank (iterate txt base_metadata m)) ->
  chunks_inv exact (iterate txt base_metadata n).
Proof.
  induction n as [|n IH]; intros Hbefore Hexact.
  - apply chunks_inv_init.
  - rewrite iterate_succ. apply chunks_inv_body.
    + apply IH; [intros m Hm; apply Hbefore; lia|].
      intros E m Hm. apply Hexact; [done|lia].
    + apply Hbefore. lia.
    + intros E. apply Hexact; [done|lia].
Qed.

End Windows.

(** *** Termination *)

(** C10: the loop of the chunker terminates. In every state the loop
    reaches, the cursor is already at the end of the text, or the iteration
    yields a window end of at least [start + 800] and moves the cursor
    strictly forward, to [len(text)] or by at least
    [chunk_size - 2 * overlap = 600] characters. The loop therefore stops
    within [len(text)] iterations with the cursor at [len(text)], more fuel
    gives the same state, and [_create_text_chunks] returns a list. *)
Theorem chunker_loop_terminates (input : pystr)
    (base_metadata : gmap string pyval) :
  (forall n,
     let st := iterate input base_metadata n in
     let st' := loop_body input base_metadata st in
     len input <= start st \/
     (start st + (chunk_size - overlap) <= window_end input (start st) /\
      (start st' = len input \/
       start st + (chunk_size - 2 * overlap) <= start st') /\
      start st < start st')) /\
  (exists st',
     start st' = len input /\
     forall extra,
       while_loop (length input + extra) input base_metadata loop_init
       = Some st') /\
  (exists cs, _create_text_chunks input base_metadata = Some cs).
Proof.
  split; [|split].
  - intros n. cbv zeta.
    pose proof (iterate_start_range input base_metadata n) as [H0 _].
    destruct (Z.lt_ge_cases (start (iterate input base_metadata n))
                (len input)) as [Hlt|Hge]; [right|by left].
    pose proof (loop_body_progress input base_metadata _ (conj H0 Hlt))
      as [Hstep Hlt'].
    pose proof (window_end_bounds input _ H0) as Hb.
    repeat split; try done; lia.
  - destruct (while_loop_terminates input base_metadata (length input)
                loop_init) as (st' & Hrun & Hend); simpl; unfold len; try lia.
    exists st'. split.
    + destruct (while_loop_iter _ _ _ _ _ Hrun) as (n & -> & _ & _).
      pose proof (iterate_start_range input base_metadata n) as Hr.
      unfold iterate, len in *. lia.
    + intros extra. by apply while_loop_more_fuel.
  - apply create_text_chunks_total.
Qed.

(** *** Word-boundary snapping *)

(** C2: in an iteration whose tentative end [start + 1000] lies before the
    end of the text, the window end is the position of the last space among
    the positions [end - 200 <= p < end] when there is one (it is then
    beyond [start]), and stays at [start + 1000] when there is none. *)
Theorem window_end_snaps_to_last_space (input : pystr) (start : Z) :
  0 <= start ->
  start + chunk_size < len input ->
  (forall p,
     last_space_in input (start + chunk_size - overlap) (start + chunk_size) p ->
     start < p ->
     window_end input start = p) /\
  ((forall q, start + chunk_size - overlap <= q < start + chunk_size ->
              input !! Z.to_nat q <> Some space) ->
   window_end input start = start + chunk_size).
Proof.
  intros H0 Hlt.
  destruct (window_end_cases input start H0 Hlt)
    as [[Hend Hno] | (Hrange & Hat & Hafter)].
  - split; [|done]. intros p (Hp & Hsp & _) _. by destruct (Hno p Hp).
  - split.
    + intros p (Hp & Hsp & Hpafter) _.
      destruct (Z.lt_trichotomy p (window_end input start))
        as [Hlt' | [Heq | Hgt]]; [|done|].
      * destruct (Hpafter (window_end input start)); [lia|done].
      * destruct (Hafter p); [lia|done].
    + intros Hno. by destruct (Hno _ Hrange).
Qed.

(** A text with one space, at offset 950, and no other white space. *)
Definition space_at_950 : pystr :=
  replicate 950 97%N ++ [space] ++ replicate 100 97%N.

Lemma window_end_snaps_to_last_space_witness :
  0 <= 0 /\ 0 + chunk_size < len space_at_950 /\
  (forall p,
     last_space_in space_at_950 (0 + chunk_size - overlap) (0 + chunk_size) p ->
     0 < p ->
     window_end space_at_950 0 = p) /\
  ((forall q, 0 + chunk_size - overlap <= q < 0 + chunk_size ->
              space_at_950 !! Z.to_nat q <> Some space) ->
   window_end space_at_950 0 = 0 + chunk_size).
Proof.
  split; [lia|]. split; [vm_compute; reflexivity|].
  apply (window_end_snaps_to_last_space space_at_950 0);
    [lia | vm_compute; reflexivity].
Defined.

(** *** Short texts *)

(** C3: a text of at most 1000 characters gives exactly one chunk; its text
    is the input itself, hence equal to it after trimming, its
    [chunk_index] is 0 and its id is [chunk_0]. *)
Theorem short_text_single_chunk (input : pystr)
    (base_metadata : gmap string pyval) :
  len input <= chunk_size ->
  exists c,
    _create_text_chunks input base_metadata = Some [c] /\
    text c = input /\
    strip (text c) = strip input /\
    meta_int c "chunk_index" = Some 0 /\
    chunk_id c = lit "chunk_0".
Proof.
  intros Hshort. exists (single_chunk input base_metadata).
  unfold _create_text_chunks.
  destruct (Z.leb_spec (len input) chunk_size); [|lia].
  repeat split. unfold meta_int, single_chunk. simpl.
  by rewrite lookup_insert_eq.
Qed.

Lemma short_text_single_chunk_witness :
  len (lit "  Clause 1.  ") <= chunk_size /\
  exists c,
    _create_text_chunks (lit "  Clause 1.  ") ∅ = Some [c] /\
    text c = lit "  Clause 1.  " /\
    strip (text c) = strip (lit "  Clause 1.  ") /\
    meta_int c "chunk_index" = Some 0 /\
    chunk_id c = lit "chunk_0".
Proof.
  split; [vm_compute; discriminate|].
  apply (short_text_single_chunk (lit "  Clause 1.  ") ∅).
  vm_compute; discriminate.
Defined.

(** *** Chunk boundaries *)

(** The boundary property as the specification states it: for a text
    longer than [chunk_size], the indices of the emitted chunks count up
    from 0 and each chunk starts inside the last [overlap] characters of
    its predecessor. *)
Definition chunk_boundary_claim (input : pystr)
    (base_metadata : gmap string pyval) : Prop :=
  chunk_size < len input ->
  exists cs,
    _create_text_chunks input base_metadata = Some cs /\
    (forall i c, cs !! i = Some c ->
       meta_int c "chunk_index" = Some (Z.of_nat i)) /\
    (forall i c c', cs !! i = Some c -> cs !! S i = Some c' ->
       exists e s', meta_int c "end_char" = Some e /\
                    meta_int c' "start_char" = Some s' /\
                    s' <= e /\ e - overlap <= s').

(** 700 letters, 2000 spaces, 300 letters: the windows [799:1798] and
    [1598:2597] hold spaces only and emit nothing. *)
Definition blank_run_text : pystr :=
  replicate 700 97%N ++ replicate 2000 space ++ replicate 300 98%N.

Lemma blank_run_chunks :
  exists c c',
    _create_text_chunks blank_run_text ∅ = Some [c; c'] /\
    meta_int c "chunk_index" = Some 0 /\
    meta_int c "start_char" = Some 0 /\
    meta_int c "end_char" = Some 999 /\
    meta_int c' "chunk_index" = Some 1 /\
    meta_int c' "start_char" = Some 2397 /\
    meta_int c' "end_char" = Some 3397.
Proof.
  assert (exists cs, _create_text_chunks blank_run_text ∅ = Some cs /\
                     length cs = 2%nat /\
                     map (fun c => (meta_int c "chunk_index",
                                    meta_int c "start_char",
                                    meta_int c "end_char")) cs
                     = [(Some 0, Some 0, Some 999);
                        (Some 1, Some 2397, Some 3397)])
    as (cs & Hcs & Hlen & Hmeta).
  { eexists. split; [vm_compute; reflexivity|].
    split; vm_compute; reflexivity. }
  destruct cs as [|c [|c' [|? ?]]]; try discriminate Hlen.
  exists c, c'. split; [exact Hcs|].
  cbn [map] in Hmeta.
  injection Hmeta as H1 H2 H3 H4 H5 H6.
  repeat split; assumption.
Qed.

(** C1, counterexample: after two skipped blank windows the second chunk
    starts at 2397, far beyond the end 999 of the first. *)
Lemma chunk_boundary_claim_fails : ~ chunk_boundary_claim blank_run_text ∅.
Proof.
  intros H. destruct H as (cs & Hcs & _ & Hov); [vm_compute; reflexivity|].
  destruct blank_run_chunks as (c & c' & Hb & _ & _ & He & _ & Hs & _).
  rewrite Hb in Hcs. injection Hcs as <-.
  destruct (Hov 0%nat c c' eq_refl eq_refl) as (e & s' & He' & Hs' & Hle & _).
  rewrite He in He'. rewrite Hs in Hs'.
  injection He' as <-. injection Hs' as <-. lia.
Qed.

(** The window of the iteration that starts at [cursor] holds a character
    that is not white space, so the iteration emits a chunk; a window that
    holds none is skipped ([if chunk_text:]). *)
Definition window_nonblank_at (input : pystr) (cursor : Z) : Prop :=
  truthy (strip (slice input cursor (window_end input cursor))) = true.

Section Pairs.
Variable txt : pystr.
Variable base_metadata : gmap string pyval.

(** What the loop keeps true of two neighbouring chunks: the second starts
    [overlap] characters before the end of the first exactly when the window
    that starts there is not blank. For the last chunk the cursor is still
    [overlap] before its end, or that window was skipped and the cursor has
    moved on, or the loop is over. *)
Record pairs_inv (st : loop_state) : Prop := {
  pairs_start : 0 <= start st;
  pairs_chunk : forall c, c ∈ chunks st ->
    exists s, meta_int c "start_char" = Some s /\ window_nonblank_at txt s;
  pairs_pair : forall i c c',
    chunks st !! i = Some c -> chunks st !! S i = Some c' ->
    exists e s', meta_int c "end_char" = Some e /\
                 meta_int c' "start_char" = Some s' /\
                 (s' = e - overlap <-> window_nonblank_at txt (e - overlap));
  pairs_last : forall c, last (chunks st) = Some c ->
    exists e, meta_int c "end_char" = Some e /\
      (start st = e - overlap \/
       (~ window_nonblank_at txt (e - overlap) /\ e - overlap < start st) \/
       len txt <= start st)
}.

Lemma pairs_inv_init : pairs_inv loop_init.
Proof.
  split; simpl; try done. intros c Hc. by apply elem_of_nil in Hc.
Qed.

Lemma pairs_inv_body st :
  pairs_inv st -> start st < len txt ->
  pairs_inv (loop_body txt base_metadata st).
Proof.
  intros [H0 Hchunk Hpair Hlast] Hlt.
  pose proof (loop_body_progress txt base_metadata st (conj H0 Hlt))
    as [_ Hprog].
  unfold loop_body in *.
  set (end_ := window_end txt (start st)) in *.
  set (chunk_text := strip (slice txt (start st) end_)) in *.
  destruct (truthy chunk_text) eqn:Htruthy; simpl in *.
  - set (new := loop_chunk base_metadata chunk_text (chunk_index st)
                  (start st) end_).
    destruct (loop_chunk_meta base_metadata chunk_text (chunk_index st)
                (start st) end_) as (_ & Ms & Me). fold new in Ms, Me.
    split; simpl.
    + lia.
    + intros c Hc. apply elem_of_app in Hc as [Hc | Hc]; [by apply Hchunk|].
      apply list_elem_of_singleton in Hc as ->. by exists (start st).
    + intros i c c' Hc Hc'.
      apply lookup_app_Some in Hc' as [Hc' | [Hge Hc']].
      * apply (Hpair i c c'); [|done].
        apply lookup_app_Some in Hc as [Hc | [Hge _]]; [done|].
        apply lookup_lt_Some in Hc'. lia.
      * apply list_lookup_singleton_Some in Hc' as [Hi <-].
        assert (length (chunks st) = S i) as Hlen by lia.
        rewrite lookup_app_l in Hc by lia.
        assert (last (chunks st) = Some c) as Hl.
        { rewrite last_lookup, Hlen. exact Hc. }
        destruct (Hlast c Hl) as (e & He & [Hgap | [[Hblank Hgap] | Hend]]);
          [| |lia]; exists e, (start st); (split; [done|]); (split; [done|]).
        -- split; [intros _|done]. unfold window_nonblank_at.
           rewrite <- Hgap. exact Htruthy.
        -- split; [lia|done].
    + intros c Hc. rewrite last_snoc in Hc. injection Hc as <-.
      exists end_. split; [done|].
      destruct (next_start_cases txt end_) as [[_ Hn] | [_ Hn]]; rewrite Hn.
      * by left.
      * right; right. lia.
  - split; simpl; try done.
    + lia.
    + intros c Hc.
      destruct (Hlast c Hc) as (e & He & [Hgap | [[Hblank Hgap] | Hend]]);
        [| |lia]; exists e; (split; [done|]); right; left.
      * split; [|lia]. unfold window_nonblank_at. rewrite <- Hgap.
        fold end_. fold chunk_text. by rewrite Htruthy.
      * split; [done|lia].
Qed.

Lemma pairs_inv_iterate n :
  (forall m, (m < n)%nat -> start (iterate txt base_metadata m) < len txt) ->
  pairs_inv (iterate txt base_metadata n).
Proof.
  induction n as [|n IH]; intros Hbefore.
  - apply pairs_inv_init.
  - rewrite iterate_succ. apply pairs_inv_body.
    + apply IH. intros m Hm. apply Hbefore. lia.
    + apply Hbefore. lia.
Qed.

End Pairs.

(** C1, amended: for a text longer than 1000 characters the indices of the
    emitted chunks are the contiguous integers from 0. For every two
    consecutive emitted chunks, the second starts no earlier than 200
    characters before the end [e] of the first, and it starts exactly at
    [e - 200] if and only if no window was skipped between the two, that
    is, if and only if the window that starts at [e - 200] holds a
    character that is not white space; it then does not start after [e]. *)
Theorem chunk_boundaries (input : pystr) (base_metadata : gmap string pyval) :
  chunk_size < len input ->
  exists cs,
    _create_text_chunks input base_metadata = Some cs /\
    (forall i c, cs !! i = Some c ->
       meta_int c "chunk_index" = Some (Z.of_nat i)) /\
    (forall i c c', cs !! i = Some c -> cs !! S i = Some c' ->
       exists e s', meta_int c "end_char" = Some e /\
                    meta_int c' "start_char" = Some s' /\
                    e - overlap <= s' /\
                    (s' = e - overlap <->
                     window_nonblank_at input (e - overlap)) /\
                    (window_nonblank_at input (e - overlap) -> s' <= e)).
Proof.
  intros Hlong.
  destruct (create_text_chunks_long input base_metadata Hlong)
    as (n & Hcs & _ & Hbefore).
  exists (chunks (iterate input base_metadata n)). split; [done|].
  pose proof (iterate_inv input base_metadata false n Hbefore) as Hinv.
  destruct Hinv as [_ _ Hchunk Hpair _]; [done|].
  pose proof (pairs_inv_iterate input base_metadata n Hbefore)
    as [_ _ Hexact _].
  split.
  - intros i c Hc. by destruct (Hchunk i c Hc).
  - intros i c c' Hc Hc'.
    destruct (Hpair i c c' Hc Hc') as (e & s' & He & Hs & Hgap).
    destruct (Hexact i c c' Hc Hc') as (e2 & s2 & He2 & Hs2 & Hiff).
    rewrite He in He2. rewrite Hs in Hs2.
    injection He2 as <-. injection Hs2 as <-.
    exists e, s'. unfold gap_ok in Hgap.
    split; [done|]. split; [done|]. split; [done|]. split; [done|].
    intros Hn. apply Hiff in Hn. unfold overlap in *. lia.
Qed.

(** 1500 letters, 2000 spaces, 300 letters: the first two chunks overlap by
    200 characters, the window after the second one is blank and skipped. *)
Definition skipped_window_text : pystr :=
  replicate 1500 97%N ++ replicate 2000 space ++ replicate 300 98%N.

Definition bounds (c : DocumentChunk) : option Z * option Z :=
  (meta_int c "start_char", meta_int c "end_char").

Example skipped_window_bounds :
  map bounds <$> _create_text_chunks skipped_window_text ∅ =
  Some [(Some 0, Some 1000); (Some 800, Some 1799); (Some 3197, Some 4197)].
Proof. vm_compute. reflexivity. Qed.

Example skipped_window_blank :
  truthy (strip (slice skipped_window_text 800
                   (window_end skipped_window_text 800))) = true /\
  truthy (strip (slice skipped_window_text 1599
                   (window_end skipped_window_text 1599))) = false.
Proof. vm_compute. done. Qed.

Lemma chunk_boundaries_witness :
  chunk_size < len skipped_window_text /\
  exists cs,
    _create_text_chunks skipped_window_text ∅ = Some cs /\
    (forall i c, cs !! i = Some c ->
       meta_int c "chunk_index" = Some (Z.of_nat i)) /\
    (forall i c c', cs !! i = Some c -> cs !! S i = Some c' ->
       exists e s', meta_int c "end_char" = Some e /\
                    meta_int c' "start_char" = Some s' /\
                    e - overlap <= s' /\
                    (s' = e - overlap <->
                     window_nonblank_at skipped_window_text (e - overlap)) /\
                    (window_nonblank_at skipped_window_text (e - overlap) ->
                     s' <= e)).
Proof.
  split; [vm_compute; reflexivity|].
  apply (chunk_boundaries skipped_window_text ∅).
  vm_compute; reflexivity.
Defined.

(** *** Chunk texts *)

(** Every chunk the loop emits for a long text is non-empty and trimmed. *)
Lemma long_text_chunks_trimmed (input : pystr)
    (base_metadata : gmap string pyval) :
  chunk_size < len input ->
  exists cs,
    _create_text_chunks input base_metadata = Some cs /\
    forall c, c ∈ cs -> text c <> [] /\ trimmed (text c).
Proof.
  intros Hlong.
  destruct (create_text_chunks_long input base_metadata Hlong)
    as (n & Hcs & _ & Hbefore).
  exists (chunks (iterate input base_metadata n)). split; [done|].
  pose proof (iterate_inv input base_metadata false n Hbefore) as Hinv.
  destruct Hinv as [_ _ Hchunk _ _]; [done|].
  intros c Hc. apply list_elem_of_lookup in Hc as [i Hi].
  destruct (Hchunk i c Hi) as (_ & _ & Hne & Htrim & _). done.
Qed.

(** C8, failing input: the file content [" a"] is not blank, so
    [_process_text] passes it to the chunker, and the single chunk keeps
    the leading space. *)
Theorem short_text_chunk_not_trimmed :
  exists c,
    _process_text (lit " a") (lit "https://example.org/a.txt") = Some [c] /\
    text c = lit " a" /\
    ~ trimmed (text c).
Proof.
  eexists. split; [vm_compute; reflexivity|]. split; [reflexivity|].
  intros [Hhead _]. specialize (Hhead space eq_refl). discriminate.
Qed.

End ChunkerProofs.


(** ** The similarity index *)

Module IndexProofs.
Import EmbeddingService.

Lemma py_index_elem {A} (l : list A) (i : Z) (x : A) :
  py_index l i = Ok x -> x ∈ l.
Proof.
  unfold py_index.
  destruct (_ <? 0); [done|].
  destruct (l !! _) eqn:E; [|done].
  intros [= <-]. by eapply list_elem_of_lookup_2.
Qed.

Lemma py_index_nil {A} (i : Z) (x : A) : py_index [] i <> Ok x.
Proof. intros H. apply py_index_elem in H. by apply elem_of_nil in H. Qed.

Lemma zip_fst_sublist {A C} (l : list A) (k : list C) :
  (zip l k).*1 `sublist_of` l.
Proof.
  revert k. induction l as [|x l IH]; intros [|y k]; simpl;
    try apply sublist_nil_l.
  apply sublist_skip, IH.
Qed.

Lemma StronglySorted_sublist {A} (R : relation A) (l1 l2 : list A) :
  l1 `sublist_of` l2 -> StronglySorted R l2 -> StronglySorted R l1.
Proof.
  induction 1 as [|x l1 l2 Hsub IH|x l1 l2 Hsub IH]; intros Hs.
  - done.
  - apply StronglySorted_cons in Hs as [Hx Hs].
    apply StronglySorted_cons. split; [|by apply IH].
    rewrite Forall_forall in *. intros y Hy. apply Hx.
    by eapply elem_of_sublist.
  - apply StronglySorted_cons in Hs as [_ Hs]. by apply IH.
Qed.

Section WithBackend.
Context {B : Backend}.

(** A result carries the score [sc]. *)
Definition has_score (sc : score) (r : chunk_data) : Prop :=
  similarity_score r = Some sc.

(** [r] does not rank below [r']. *)
Definition ranked_before (r r' : chunk_data) : Prop :=
  exists sc sc', has_score sc r /\ has_score sc' r' /\ score_ge sc sc' = true.

(** What the loop appends: one result per kept pair, in the order of the
    pairs, each a stored dict with the score of its pair. *)
Lemma search_loop_spec metadata thr pairs : forall results out,
  search_loop metadata thr pairs results = Ok out ->
  exists kept,
    out = results ++ kept /\
    (length kept <= length pairs)%nat /\
    Forall (fun r => exists d sc,
              d ∈ metadata /\ r = set_similarity_score d sc /\
              score_ge sc thr = true /\ sc ∈ pairs.*1) kept /\
    (StronglySorted (fun a b => score_ge a b = true) pairs.*1 ->
     StronglySorted ranked_before kept).
Proof.
  induction pairs as [|[sc idx] pairs IH]; intros results out; simpl.
  - intros [= <-]. exists []. rewrite app_nil_r.
    repeat split; try done. constructor.
  - destruct (negb (idx =? -1) && score_ge sc thr) eqn:Hkeep.
    + apply andb_prop in Hkeep as [_ Hge].
      destruct (py_index metadata idx) as [d|e] eqn:Hd; simpl; [|done].
      intros Hrun. destruct (IH _ _ Hrun) as (kept & -> & Hlen & Hall & Hsorted).
      exists (set_similarity_score d sc :: kept).
      rewrite <- app_assoc. simpl. split; [done|]. split; [lia|].
      split; [|].
      * constructor.
        -- exists d, sc. repeat split; try done.
           ++ by eapply py_index_elem.
           ++ apply elem_of_cons. by left.
        -- eapply Forall_impl; [exact Hall|].
           intros r (d' & sc' & ? & ? & ? & ?).
           exists d', sc'. repeat split; try done.
           apply elem_of_cons. by right.
      * intros Hs. apply StronglySorted_cons in Hs as [Hx Hs].
        apply StronglySorted_cons. split; [|by apply Hsorted].
        apply Forall_forall. intros r Hr.
        destruct (proj1 (Forall_forall _ _) Hall r Hr)
          as (d' & sc' & _ & -> & _ & Hin).
        exists sc, sc'. repeat split.
        exact (proj1 (Forall_forall _ _) Hx sc' Hin).
    + intros Hrun. destruct (IH _ _ Hrun) as (kept & -> & Hlen & Hall & Hsorted).
      exists kept. split; [done|]. split; [lia|]. split.
      * eapply Forall_impl; [exact Hall|].
        intros r (d' & sc' & ? & ? & ? & ?).
        exists d', sc'. repeat split; try done.
        apply elem_of_cons. by right.
      * intros Hs. apply StronglySorted_cons in Hs as [_ Hs].
        by apply Hsorted.
Qed.

(** A successful search is the loop run over one row of scores and one row
    of positions of the current index, on the current metadata. *)
Lemma search_similar_inv self query top_k thr results :
  search_similar self query top_k thr = Ok results ->
  results = [] \/
  exists qe S I scores0 indices0,
    index_search (index self) qe top_k = Ok (S, I) /\
    scores0 ∈ S /\
    search_loop (chunks_metadata self) thr (zip scores0 indices0) []
    = Ok results.
Proof.
  unfold search_similar.
  destruct (is_indexed self); simpl; [|intros [= <-]; by left].
  destruct (embed_texts [query]) as [qe|e]; simpl; [|done].
  destruct (index_search (index self) qe top_k) as [[S I]|e] eqn:Hs;
    simpl; [|done].
  destruct (py_index S 0) as [scores0|e] eqn:H0; simpl; [|done].
  destruct (py_index I 0) as [indices0|e] eqn:H1; simpl; [|done].
  intros Hrun. right. exists qe, S, I, scores0, indices0.
  split; [done|]. split; [by eapply py_index_elem|done].
Qed.



Lemma context_loop_spec similar_chunks : forall i context_parts,
  context_loop similar_chunks i context_parts =
  context_parts ++
  imap (fun k chunk => context_block (i + Z.of_nat k) chunk) similar_chunks.
Proof.
  induction similar_chunks as [|chunk rest IH]; intros i parts; simpl.
  - by rewrite app_nil_r.
  - rewrite IH, <- app_assoc. simpl. rewrite Z.add_0_r. do 2 f_equal.
    apply imap_ext. intros k c _. simpl. f_equal. lia.
Qed.

(** *** Reindexing *)


(** *** Thresholded top-k search *)

(** C5: a search with [top_k >= 0] returns at most [top_k] results, each
    with a score that is [>=] the threshold, ranked from the highest score
    down, given that [index.search] ranks its rows; and a search on a
    service that has indexed nothing returns the empty list. *)
Theorem search_results_ranked (R : RankedSearch B)
    (self : service) (query : pystr) (top_k : Z) (thr : score)
    (results : list chunk_data) :
  0 <= top_k ->
  search_similar self query top_k thr = Ok results ->
  len results <= top_k /\
  Forall (fun r => exists sc, has_score sc r /\ score_ge sc thr = true)
    results /\
  StronglySorted ranked_before results /\
  search_similar init query top_k thr = Ok [].
Proof.
  intros Hk Hsearch.
  destruct (search_similar_inv _ _ _ _ _ Hsearch)
    as [-> | (qe & S & I & s0 & i0 & Hs & Hrow & Hloop)].
  { repeat split; try constructor. unfold len. simpl. lia. }
  destruct (search_loop_spec _ _ _ _ _ Hloop)
    as (kept & -> & Hlen & Hall & Hsorted).
  pose proof (search_row_length _ _ _ _ _ _ Hs Hrow) as Hrowlen.
  pose proof (search_row_ranked _ _ _ _ _ _ Hs Hrow) as Hranked.
  pose proof (sublist_length _ _ (zip_fst_sublist s0 i0)) as Hzip.
  rewrite length_fmap in Hzip.
  simpl. repeat split.
  - unfold len in *. lia.
  - eapply Forall_impl; [exact Hall|].
    intros r (d & sc & _ & -> & Hge & _). by exists sc.
  - apply Hsorted. eapply StronglySorted_sublist; [|exact Hranked].
    apply zip_fst_sublist.
Qed.

(** *** Context rendering *)

(** Every result of a search carries the score of its pair. *)
Lemma search_results_scored self query top_k thr results :
  search_similar self query top_k thr = Ok results ->
  Forall (fun r => exists sc, similarity_score r = Some sc) results.
Proof.
  intros Hrun.
  destruct (search_similar_inv _ _ _ _ _ Hrun)
    as [-> | (qe & S & I & scores0 & indices0 & _ & _ & Hloop)];
    [constructor|].
  destruct (search_loop_spec _ _ _ _ _ Hloop) as (kept & -> & _ & Hall & _).
  simpl. eapply Forall_impl; [exact Hall|].
  intros r (d & sc & _ & -> & _). by exists sc.
Qed.

Lemma imap_Forall2 {A C D} (P : A -> C -> Prop) (l1 : list A) (l2 : list C) :
  Forall2 P l1 l2 ->
  forall f g : nat -> _ -> D,
  (forall k x y, P x y -> f k x = g k y) ->
  imap f l1 = imap g l2.
Proof.
  induction 1 as [|x y l1 l2 Hxy _ IH]; intros f g Hfg; simpl; [done|].
  f_equal; [by apply Hfg|]. apply IH. intros k x' y' HP. by apply Hfg.
Qed.

(** C9: when the search of a query (at most [max_chunks] results, default
    threshold) returns [results], each result carries a score and a text,
    and the context is made of one block per result, in the order of the
    results. The block of the result at position [k] (from 0) is the
    characters [[Context ], the rank [k + 1] in decimal, the characters
    [] (Score: ], the score rendered to two decimals, a closing
    parenthesis, one line break and the text of the chunk. Two line breaks
    stand between consecutive blocks, and the context is the empty string
    when there is no result. *)
Theorem context_rendering (self : service) (query : pystr) (max_chunks : Z)
    (results : list chunk_data) :
  search_similar self query max_chunks default_score_threshold = Ok results ->
  exists scored : list (score * pystr),
    Forall2 (fun r st => similarity_score r = Some st.1 /\ d_text r = st.2)
      results scored /\
    get_context_for_query self query max_chunks =
      Ok (join [10%N; 10%N]
            (imap (fun k st =>
                     lit "[Context " ++ str_int (Z.of_nat k + 1)
                       ++ lit "] (Score: " ++ format_2f st.1 ++ lit ")"
                       ++ [10%N] ++ st.2) scored)) /\
    (results = [] -> get_context_for_query self query max_chunks = Ok []).
Proof.
  intros Hrun.
  pose proof (search_results_scored _ _ _ _ _ Hrun) as Hscored.
  assert (exists scored : list (score * pystr),
    Forall2 (fun r st => similarity_score r = Some st.1 /\ d_text r = st.2)
      results scored) as (scored & H2).
  { clear Hrun. induction Hscored as [|r rs [sc Hsc] _ (scored & IH)].
    - exists []. constructor.
    - exists ((sc, d_text r) :: scored). by constructor. }
  exists scored. split; [done|].
  unfold get_context_for_query. rewrite Hrun. simpl.
  rewrite context_loop_spec. simpl. split.
  - do 2 f_equal. apply (imap_Forall2 _ _ _ H2).
    intros k r st [Hsc Ht]. unfold context_block. rewrite Hsc, Ht.
    replace (1 + Z.of_nat k) with (Z.of_nat k + 1) by lia. done.
  - by intros ->.
Qed.

End WithBackend.

#[local] Existing Instance SampleBackend.backend.

(** The sample index ranks its rows: every row is [k] times the score
    1.00. *)
Lemma sample_ranked : RankedSearch SampleBackend.backend.
Proof.
  split; simpl; unfold SampleBackend.search; intros idx qs k S I row;
    destruct (Z.leb_spec k 0); try done;
    intros [= <- <-] Hrow;
    apply list_elem_of_fmap in Hrow as (q & -> & _).
  - unfold len. rewrite length_replicate. lia.
  - induction (Z.to_nat k) as [|n IH]; simpl; constructor; [done|].
    apply Forall_forall. intros x Hx.
    apply elem_of_replicate in Hx as [-> _]. done.
Qed.

(** Two one-chunk corpora and the service that indexed the first, then the
    second. *)
Definition corpus_a : list DocumentChunk :=
  [DocumentProcessor.single_chunk (lit "Clause A") ∅].
Definition corpus_b : list DocumentChunk :=
  [DocumentProcessor.single_chunk (lit "Clause B") ∅].

Definition sample_service : service (B := SampleBackend.backend) :=
  (index_chunks (index_chunks init corpus_a).1 corpus_b).1.

Definition sample_result : chunk_data (B := SampleBackend.backend) :=
  set_similarity_score (B := SampleBackend.backend)
    (to_dict (DocumentProcessor.single_chunk (lit "Clause B") ∅)) 100.

Example sample_search :
  search_similar sample_service (lit "which clause") 3 50 = Ok [sample_result].
Proof. vm_compute. reflexivity. Qed.

Example sample_context :
  get_context_for_query sample_service (lit "which clause") 3 =
  Ok (lit "[Context 1] (Score: 1.00)" ++ nl ++ lit "Clause B").
Proof. vm_compute. reflexivity. Qed.


Lemma search_results_ranked_witness :
  0 <= 3 /\
  search_similar sample_service (lit "which clause") 3 50
  = Ok [sample_result] /\
  len [sample_result] <= 3 /\
  Forall (fun r => exists sc, has_score sc r /\
                              score_ge (Backend := SampleBackend.backend)
                                sc 50 = true) [sample_result] /\
  StronglySorted ranked_before [sample_result] /\
  search_similar (B := SampleBackend.backend) init (lit "which clause") 3 50
  = Ok [].
Proof.
  split; [lia|]. split; [vm_compute; reflexivity|].
  apply (search_results_ranked sample_ranked sample_service
           (lit "which clause") 3 50 [sample_result]);
    [lia | vm_compute; reflexivity].
Defined.

(** A second sample index. For a query of fewer than 20 characters its
    row holds the scores 0.92, 0.61, 0.30 and so on down, so that of three
    indexed clauses the first two pass the threshold 0.50; for a longer
    query the row starts at 0.30 and nothing passes. *)
Definition graded_search (idx qs : list Z) (k : Z)
    : outcome (list (list Z) * list (list Z)) :=
  Ok ((fun q => (fun j => (if q <? 20 then 92 else 30) - 31 * Z.of_nat j)
                  <$> seq 0 (Z.to_nat k)) <$> qs,
      (fun _ => SampleBackend.positions (length idx) (Z.to_nat k)) <$> qs).

Definition graded_backend : Backend :=
  {| vec := Z;
     score := Z;
     faiss_index := list Z;
     encode := SampleBackend.embed_lengths;
     index_new := [];
     index_reset := fun _ => [];
     index_add := fun idx embeddings => Ok (idx ++ embeddings);
     index_search := graded_search;
     score_ge := fun a b => b <=? a;
     default_score_threshold := 50;
     format_2f := SampleBackend.hundredths;
     generate_content := SampleBackend.echo;
     process_document_from_url := SampleBackend.fetch |}.

Definition three_clauses : list DocumentChunk :=
  [DocumentProcessor.single_chunk (lit "Clause A") ∅;
   DocumentProcessor.single_chunk (lit "Clause B") ∅;
   DocumentProcessor.single_chunk (lit "Clause C") ∅].

Definition graded_service : service (B := graded_backend) :=
  (index_chunks (B := graded_backend) init three_clauses).1.

Definition graded_results : list (chunk_data (B := graded_backend)) :=
  [set_similarity_score (B := graded_backend)
     (to_dict (DocumentProcessor.single_chunk (lit "Clause A") ∅)) 92;
   set_similarity_score (B := graded_backend)
     (to_dict (DocumentProcessor.single_chunk (lit "Clause B") ∅)) 61].

Example graded_context :
  get_context_for_query graded_service (lit "which clause") 3 =
  Ok (lit "[Context 1] (Score: 0.92)" ++ [10%N] ++ lit "Clause A"
      ++ [10%N; 10%N] ++
      lit "[Context 2] (Score: 0.61)" ++ [10%N] ++ lit "Clause B").
Proof. vm_compute. reflexivity. Qed.

(** No result meets the threshold: the context is the empty string. *)
Example empty_context :
  search_similar graded_service (lit "a question no clause answers") 3
    (default_score_threshold (Backend := graded_backend)) = Ok [] /\
  get_context_for_query graded_service (lit "a question no clause answers") 3
  = Ok [].
Proof. split; reflexivity. Qed.

Lemma context_rendering_witness :
  search_similar graded_service (lit "which clause") 3
    (default_score_threshold (Backend := graded_backend))
  = Ok graded_results /\
  (exists scored : list (Z * pystr),
    Forall2 (fun (r : chunk_data (B := graded_backend)) st =>
               similarity_score r = Some st.1 /\ d_text r = st.2)
      graded_results scored /\
    get_context_for_query graded_service (lit "which clause") 3 =
      Ok (join [10%N; 10%N]
            (imap (fun k st =>
                     lit "[Context " ++ str_int (Z.of_nat k + 1)
                       ++ lit "] (Score: " ++ SampleBackend.hundredths st.1
                       ++ lit ")" ++ [10%N] ++ st.2) scored)) /\
    (graded_results = [] ->
     get_context_for_query graded_service (lit "which clause") 3 = Ok [])) /\
  get_context_for_query graded_service (lit "which clause") 3 =
  Ok (lit "[Context 1] (Score: 0.92)" ++ [10%N] ++ lit "Clause A"
      ++ [10%N; 10%N] ++
      lit "[Context 2] (Score: 0.61)" ++ [10%N] ++ lit "Clause B").
Proof.
  split; [reflexivity|]. split; [|vm_compute; reflexivity].
  apply (context_rendering (B := graded_backend) graded_service
           (lit "which clause") 3 graded_results).
  reflexivity.
Defined.

End IndexProofs.

(** ** Concurrent dispatch *)

Module GatherProofs.

Lemma complete_all {A} (tasks : list (outcome A)) (completion : list nat) :
  forall slots,
    length slots = length tasks ->
    forall i,
      foldl (complete_task tasks) slots completion !! i =
      if decide (i ∈ completion) then Some <$> tasks !! i else slots !! i.
Proof.
  induction completion as [|j rest IH]; intros slots Hlen i; simpl.
  - destruct (decide (i ∈ [])) as [Hin|_]; [|done].
    by apply elem_of_nil in Hin.
  - assert (length (complete_task tasks slots j) = length tasks) as Hlen'.
    { unfold complete_task. destruct (tasks !! j); [|done].
      by rewrite length_insert. }
    rewrite (IH _ Hlen' i).
    destruct (decide (i ∈ rest)) as [Hin|Hnot].
    + destruct (decide (i ∈ j :: rest)) as [_|Hn]; [done|].
      destruct Hn. apply elem_of_cons. by right.
    + destruct (decide (i = j)) as [->|Hne].
      * destruct (decide (j ∈ j :: rest)) as [_|Hn];
          [|destruct Hn; apply elem_of_cons; by left].
        unfold complete_task. destruct (tasks !! j) as [r|] eqn:Hj; simpl.
        -- apply list_lookup_insert_eq. rewrite Hlen.
           by eapply lookup_lt_Some.
        -- apply lookup_ge_None_2. rewrite Hlen.
           by apply lookup_ge_None_1.
      * destruct (decide (i ∈ j :: rest)) as [Hin|_].
        { apply elem_of_cons in Hin as [?|?]; done. }
        unfold complete_task. destruct (tasks !! j); [|done].
        by apply list_lookup_insert_ne.
Qed.

(** Whatever the order of completion, a dispatch that runs every task
    delivers the outcomes in the order of the tasks. *)
Lemma gather_in_task_order {A} (tasks : list (outcome A))
    (completion : list nat) :
  (forall i, (i < length tasks)%nat -> i ∈ completion) ->
  gather tasks completion = Ok tasks.
Proof.
  intros Hall. unfold gather.
  assert (foldl (complete_task tasks) (replicate (length tasks) None)
            completion = Some <$> tasks) as ->.
  { apply list_eq. intros i.
    rewrite complete_all by apply length_replicate.
    rewrite list_lookup_fmap.
    destruct (decide (i ∈ completion)) as [_|Hnot]; [done|].
    assert (length tasks <= i)%nat as Hge.
    { destruct (Nat.le_gt_cases (length tasks) i) as [|Hlt]; [done|].
      destruct Hnot. by apply Hall. }
    rewrite (lookup_ge_None_2 tasks) by done.
    apply lookup_ge_None_2. by rewrite length_replicate. }
  by rewrite mapM_fmap_Some.
Qed.

End GatherProofs.

(** ** The answer generator *)

Module AnswerProofs.
Import GeminiService.

Section WithBackend.
Context {B : Backend}.

Lemma generate_answer_ok query context :
  exists answer,
    generate_answer query context = Ok answer /\
    (forall e, generate_content (full_prompt query context) = Raise e ->
               answer = apology ++ e) /\
    (forall response, generate_content (full_prompt query context) = Ok response ->
                      answer = strip response).
Proof.
  unfold generate_answer.
  destruct (generate_content _) as [response|e]; eexists;
    (split; [reflexivity|]); split; intros ? [= <-]; done.
Qed.

Lemma batch_length queries contexts completion :
  length queries = length contexts ->
  exists answers,
    generate_batch_answers queries contexts completion = Ok answers /\
    length answers = length queries.
Proof.
  intros Hlen. unfold generate_batch_answers, gather.
  destruct (mapM id _) as [results|] eqn:Hm.
  - eexists. split; [reflexivity|].
    apply length_mapM in Hm. rewrite length_fmap, <- Hm.
    clear Hm. set (tasks := _ <$> zip queries contexts).
    assert (length tasks = length queries) as Htasks.
    { subst tasks. rewrite length_fmap, length_zip. lia. }
    assert (forall slots,
              length slots = length tasks ->
              length (foldl (complete_task tasks) slots completion)
              = length tasks) as Hfold.
    { induction completion as [|j rest IH]; intros slots Hs; simpl; [done|].
      apply IH. unfold complete_task. destruct (tasks !! j); [|done].
      by rewrite length_insert. }
    rewrite Hfold by apply length_replicate. done.
  - eexists. split; [reflexivity|]. apply length_replicate.
Qed.

Lemma batch_in_order queries contexts completion :
  (forall i, (i < length (zip queries contexts))%nat -> i ∈ completion) ->
  generate_batch_answers queries contexts completion =
  Ok (collect_answer <$>
        ((fun qc => generate_answer qc.1 qc.2) <$> zip queries contexts)).
Proof.
  intros Hall. unfold generate_batch_answers.
  rewrite GatherProofs.gather_in_task_order; [done|].
  intros i Hi. apply Hall. by rewrite length_fmap in Hi.
Qed.

(** *** Failure isolation *)

(** C7: [generate_answer] never raises: it returns the stripped response,
    or, when the completion model fails with [e], the apology followed by
    [e]. For query and context lists of equal length, with a dispatch that
    runs every task in any order, [generate_batch_answers] returns one
    answer per query, and the answer at each position is the one
    [generate_answer] gives for the query and the context at that position:
    the apology for a query whose completion fails, the stripped response
    for every other one. *)
Theorem answers_isolate_failures (queries contexts : list pystr)
    (completion : list nat) :
  length queries = length contexts ->
  (forall i, (i < length queries)%nat -> i ∈ completion) ->
  (forall query context,
     exists answer,
       generate_answer query context = Ok answer /\
       (forall e, generate_content (full_prompt query context) = Raise e ->
                  answer = apology ++ e)) /\
  exists answers,
    generate_batch_answers queries contexts completion = Ok answers /\
    length answers = length queries /\
    forall i query context,
      queries !! i = Some query -> contexts !! i = Some context ->
      (forall e, generate_content (full_prompt query context) = Raise e ->
                 answers !! i = Some (apology ++ e)) /\
      (forall response,
         generate_content (full_prompt query context) = Ok response ->
         answers !! i = Some (strip response)).
Proof.
  intros Hlen Hall. split.
  - intros query context.
    destruct (generate_answer_ok query context) as (a & Ha & He & _).
    by exists a.
  - destruct (batch_length queries contexts completion Hlen)
      as (answers & Hrun & Hlength).
    exists answers. split; [done|]. split; [done|].
    rewrite batch_in_order in Hrun.
    2: { intros i Hi. apply Hall. rewrite length_zip in Hi. lia. }
    injection Hrun as <-.
    intros i query context Hq Hc.
    assert (zip queries contexts !! i = Some (query, context)) as Hz.
    { apply lookup_zip_with_Some. by exists query, context. }
    rewrite !list_lookup_fmap, Hz. simpl.
    destruct (generate_answer_ok query context) as (a & -> & He & Hr).
    simpl. split.
    + intros e E. by rewrite (He e E).
    + intros r E. by rewrite (Hr r E).
Qed.

End WithBackend.

#[local] Existing Instance SampleBackend.backend.

(** Three queries of which the second is refused by the completion
    model, finishing in the order third, first, second. *)
Definition three_queries : list pystr :=
  [lit "coverage"; lit "why?"; lit "limits"].
Definition three_contexts : list pystr :=
  [lit "c1"; lit "c2"; lit "c3"].

Example second_query_fails :
  generate_batch_answers three_queries three_contexts [2; 0; 1]%nat =
  Ok [full_prompt (lit "coverage") (lit "c1");
      apology ++ lit "blocked prompt";
      full_prompt (lit "limits") (lit "c3")].
Proof. vm_compute. reflexivity. Qed.

Lemma answers_isolate_failures_witness :
  length three_queries = length three_contexts /\
  (forall i, (i < length three_queries)%nat -> i ∈ [2; 0; 1]%nat) /\
  (forall query context,
     exists answer,
       generate_answer query context = Ok answer /\
       (forall e, generate_content (full_prompt query context) = Raise e ->
                  answer = apology ++ e)) /\
  exists answers,
    generate_batch_answers three_queries three_contexts [2; 0; 1]%nat
    = Ok answers /\
    length answers = length three_queries /\
    forall i query context,
      three_queries !! i = Some query -> three_contexts !! i = Some context ->
      (forall e, generate_content (full_prompt query context) = Raise e ->
                 answers !! i = Some (apology ++ e)) /\
      (forall response,
         generate_content (full_prompt query context) = Ok response ->
         answers !! i = Some (strip response)).
Proof.
  assert (forall i, (i < length three_queries)%nat -> i ∈ [2; 0; 1]%nat)
    as Hall.
  { intros i Hi. simpl in Hi.
    destruct i as [|[|[|i]]]; [| | |lia];
      repeat first [apply list_elem_of_here | apply list_elem_of_further]. }
  split; [reflexivity|]. split; [exact Hall|].
  apply (answers_isolate_failures three_queries three_contexts
           [2; 0; 1]%nat); [reflexivity | exact Hall].
Defined.

End AnswerProofs.

(** ** The orchestrator *)

Module PipelineProofs.
Import QueryProcessor.

Section WithBackend.
Context {B : Backend}.

(** The context loop retrieves one context per question, in order, and
    stops at the first retrieval that raises. *)
Lemma retrieve_contexts_spec es questions : forall contexts,
  match retrieve_contexts es questions contexts with
  | Ok out =>
      exists new,
        out = contexts ++ new /\
        Forall2 (fun question context =>
                   EmbeddingService.get_context_for_query es question
                     max_context_chunks = Ok context) questions new
  | Raise e =>
      exists question,
        question ∈ questions /\
        EmbeddingService.get_context_for_query es question max_context_chunks
        = Raise e
  end.
Proof.
  induction questions as [|question rest IH]; intros contexts; simpl.
  - exists []. by rewrite app_nil_r.
  - destruct (EmbeddingService.get_context_for_query es question _)
      as [context|e] eqn:Hq; simpl.
    + specialize (IH (contexts ++ [context])).
      destruct (retrieve_contexts es rest _) as [out|e].
      * destruct IH as (new & -> & Hnew).
        exists (context :: new). rewrite <- app_assoc. split; [done|].
        by constructor.
      * destruct IH as (q & Hin & Hr). exists q. split; [|done].
        apply elem_of_cons. by right.
    + exists question. split; [|done]. apply elem_of_cons. by left.
Qed.

(** The property as the specification states it: once the document is
    processed and indexed, the request yields one answer per question. *)
Definition stage_c_always_answers (es : EmbeddingService.service)
    (document_url : pystr) (questions : list pystr) (completion : list nat)
    : Prop :=
  forall chunks es',
    _process_document document_url = Ok chunks ->
    _index_chunks es chunks = (es', Ok tt) ->
    exists answers,
      (process_request es document_url questions completion).2 = Ok answers /\
      length answers = length questions.

(** *** Outcome of a request *)

(** C6, amended: with a dispatch that runs every generation task, in any
    order, a request fails exactly when fetching and chunking the document
    raises, when indexing raises, or when retrieving the context of a
    question raises; otherwise it returns one answer per question, the
    answer at each position being the one generated for the question and
    the context at that position. *)
Theorem process_request_outcome (es : EmbeddingService.service)
    (document_url : pystr) (questions : list pystr) (completion : list nat) :
  (forall i, (i < length questions)%nat -> i ∈ completion) ->
  match _process_document document_url with
  | Raise e =>
      process_request es document_url questions completion
      = (es, Raise (failed_request e))
  | Ok chunks =>
      let es' := (_index_chunks es chunks).1 in
      match (_index_chunks es chunks).2 with
      | Raise e =>
          process_request es document_url questions completion
          = (es', Raise (failed_request e))
      | Ok _ =>
          match retrieve_contexts es' questions [] with
          | Raise e =>
              process_request es document_url questions completion
              = (es', Raise (failed_request e)) /\
              exists question,
                question ∈ questions /\
                EmbeddingService.get_context_for_query es' question
                  max_context_chunks = Raise e
          | Ok contexts =>
              Forall2 (fun question context =>
                         EmbeddingService.get_context_for_query es' question
                           max_context_chunks = Ok context)
                questions contexts /\
              exists answers,
                process_request es document_url questions completion
                = (es', Ok answers) /\
                length answers = length questions /\
                forall i question context,
                  questions !! i = Some question ->
                  contexts !! i = Some context ->
                  exists answer,
                    GeminiService.generate_answer question context
                    = Ok answer /\
                    answers !! i = Some answer
          end
      end
  end.
Proof.
  intros Hall. unfold process_request.
  destruct (_process_document document_url) as [chunks|e]; [|done].
  destruct (_index_chunks es chunks) as [es' [[]|e]]; simpl; [|done].
  unfold _process_questions_with_gemini.
  pose proof (retrieve_contexts_spec es' questions []) as Hctx.
  destruct (retrieve_contexts es' questions []) as [contexts|e]; simpl;
    [|by split].
  destruct Hctx as (new & -> & Hnew). simpl. split; [done|].
  pose proof (Forall2_length _ _ _ Hnew) as Hlen.
  destruct (AnswerProofs.batch_length questions new completion Hlen)
    as (answers & Hrun & Hlength).
  rewrite Hrun. exists answers. split; [done|]. split; [done|].
  rewrite AnswerProofs.batch_in_order in Hrun.
  2: { intros i Hi. apply Hall. rewrite length_zip in Hi. lia. }
  injection Hrun as <-.
  intros i question context Hq Hc.
  assert (zip questions new !! i = Some (question, context)) as Hz.
  { apply lookup_zip_with_Some. by exists question, context. }
  rewrite !list_lookup_fmap, Hz. simpl.
  destruct (AnswerProofs.generate_answer_ok question context)
    as (a & -> & _). by exists a.
Qed.

End WithBackend.

#[local] Existing Instance SampleBackend.backend.

Definition policy_url : pystr := lit "https://example.org/policy.txt".

(** C6, counterexample: the document is processed and indexed, and the
    embedding model then refuses the empty question: the request raises in
    stage (c). *)
Lemma stage_c_retrieval_failure_fails_request :
  ~ stage_c_always_answers EmbeddingService.init policy_url [[]] [0%nat].
Proof.
  intros H.
  edestruct H as (answers & Hrun & _);
    [vm_compute; reflexivity | vm_compute; reflexivity |].
  vm_compute in Hrun. discriminate Hrun.
Qed.

Example two_questions :
  (process_request EmbeddingService.init policy_url
     [lit "coverage"; lit "why?"] [1; 0]%nat).2 =
  Ok [GeminiService.full_prompt (lit "coverage")
        (lit "[Context 1] (Score: 1.00)" ++ nl ++ SampleBackend.document);
      GeminiService.apology ++ lit "blocked prompt"].
Proof. vm_compute. reflexivity. Qed.

Definition two_questions_asked : list pystr := [lit "coverage"; lit "why?"].

Lemma process_request_outcome_witness :
  (forall i, (i < length two_questions_asked)%nat -> i ∈ [1; 0]%nat) /\
  match _process_document policy_url with
  | Raise e =>
      process_request EmbeddingService.init policy_url two_questions_asked
        [1; 0]%nat
      = (EmbeddingService.init, Raise (failed_request e))
  | Ok chunks =>
      let es' := (_index_chunks EmbeddingService.init chunks).1 in
      match (_index_chunks EmbeddingService.init chunks).2 with
      | Raise e =>
          process_request EmbeddingService.init policy_url
            two_questions_asked [1; 0]%nat
          = (es', Raise (failed_request e))
      | Ok _ =>
          match retrieve_contexts es' two_questions_asked [] with
          | Raise e =>
              process_request EmbeddingService.init policy_url
                two_questions_asked [1; 0]%nat
              = (es', Raise (failed_request e)) /\
              exists question,
                question ∈ two_questions_asked /\
                EmbeddingService.get_context_for_query es' question
                  max_context_chunks = Raise e
          | Ok contexts =>
              Forall2 (fun question context =>
                         EmbeddingService.get_context_for_query es' question
                           max_context_chunks = Ok context)
                two_questions_asked contexts /\
              exists answers,
                process_request EmbeddingService.init policy_url
                  two_questions_asked [1; 0]%nat
                = (es', Ok answers) /\
                length answers = length two_questions_asked /\
                forall i question context,
                  two_questions_asked !! i = Some question ->
                  contexts !! i = Some context ->
                  exists answer,
                    GeminiService.generate_answer question context
                    = Ok answer /\
                    answers !! i = Some answer
          end
      end
  end.
Proof.
  assert (forall i, (i < length two_questions_asked)%nat -> i ∈ [1; 0]%nat)
    as Hall.
  { intros i Hi. simpl in Hi.
    destruct i as [|[|i]]; [| |lia];
      repeat first [apply list_elem_of_here | apply list_elem_of_further]. }
  split; [exact Hall|].
  exact (process_request_outcome EmbeddingService.init policy_url
           two_questions_asked [1; 0]%nat Hall).
Defined.

End PipelineProofs.

(** * Further properties of the chunker *)

Module ChunkerExtras.
Import DocumentProcessor ChunkerProofs.

(** *** Strings *)

Lemma lit_inj s1 s2 : lit s1 = lit s2 -> s1 = s2.
Proof.
  unfold lit. intros H.
  rewrite <- (string_of_list_ascii_of_string s1),
          <- (string_of_list_ascii_of_string s2).
  f_equal. revert H.
  generalize (list_ascii_of_string s1), (list_ascii_of_string s2).
  induction l as [|a l IH]; intros [|b k]; simpl; try done.
  intros [= Hab Hlk]. f_equal; [|by apply IH].
  rewrite <- (ascii_N_embedding a), <- (ascii_N_embedding b). by rewrite Hab.
Qed.

Lemma str_int_inj a b : str_int a = str_int b -> a = b.
Proof. unfold str_int. intros H. apply lit_inj in H. by apply (inj pretty). Qed.

Lemma lstrip_length s : (length (lstrip s) <= length s)%nat.
Proof.
  destruct (lstrip_suffix s) as [ws E]. rewrite E at 2.
  rewrite length_app. lia.
Qed.

Lemma strip_length s : (length (strip s) <= length s)%nat.
Proof.
  unfold strip, rstrip. rewrite length_reverse.
  pose proof (lstrip_length (reverse (lstrip s))) as H.
  rewrite length_reverse in H. pose proof (lstrip_length s). lia.
Qed.

Lemma lstrip_elem x s : x ∈ s -> py_isspace x = false -> x ∈ lstrip s.
Proof.
  intros Hin Hx. induction s as [|c s IH]; simpl; [done|].
  destruct (py_isspace c) eqn:Hc; [|done].
  apply elem_of_cons in Hin as [->|Hin]; [congruence|by apply IH].
Qed.

Lemma strip_elem x s : x ∈ s -> py_isspace x = false -> x ∈ strip s.
Proof.
  intros Hin Hx. unfold strip, rstrip.
  apply elem_of_reverse, lstrip_elem; [|done].
  apply elem_of_reverse. by apply lstrip_elem.
Qed.

Lemma lstrip_blank s : Forall (fun x => py_isspace x = true) s -> lstrip s = [].
Proof. induction 1 as [|x s Hx _ IH]; simpl; [done|]. by rewrite Hx. Qed.

Lemma strip_blank s : Forall (fun x => py_isspace x = true) s -> strip s = [].
Proof. intros H. unfold strip. by rewrite (lstrip_blank s H). Qed.

Lemma strip_elem_of x s : x ∈ strip s -> x ∈ s.
Proof.
  unfold strip. intros H.
  destruct (rstrip_prefix (lstrip s)) as [ws E].
  destruct (lstrip_suffix s) as [ws' E'].
  rewrite E'. apply elem_of_app. right.
  rewrite E. apply elem_of_app. by left.
Qed.

Lemma slice_inside {A} (s : list A) (i j : Z) :
  0 <= i -> 0 <= j ->
  slice s i j =
  take (Z.to_nat (Z.min j (len s) - Z.min i (len s)))
    (drop (Z.to_nat (Z.min i (len s))) s).
Proof.
  intros Hi Hj. unfold slice, clip.
  destruct (Z.ltb_spec i 0); [lia|]. destruct (Z.ltb_spec j 0); [lia|]. done.
Qed.

Lemma slice_length {A} (s : list A) (i j : Z) :
  0 <= i -> i <= j -> len (slice s i j) <= j - i.
Proof.
  intros Hi Hij. rewrite slice_inside by lia.
  unfold len. rewrite length_take, length_drop. lia.
Qed.

Lemma slice_lookup {A} (s : list A) (i j : Z) (p : nat) (x : A) :
  0 <= i -> i <= Z.of_nat p -> Z.of_nat p < j ->
  s !! p = Some x ->
  slice s i j !! (p - Z.to_nat i)%nat = Some x.
Proof.
  intros Hi Hip Hpj Hx.
  pose proof (lookup_lt_Some _ _ _ Hx) as Hlt.
  rewrite slice_inside by lia.
  unfold len. rewrite lookup_take_lt by lia.
  rewrite lookup_drop. rewrite <- Hx. f_equal. lia.
Qed.

Lemma slice_elem_of {A} (s : list A) (i j : Z) (x : A) :
  x ∈ slice s i j -> x ∈ s.
Proof.
  unfold slice. intros H.
  eapply elem_of_sublist; [exact H|].
  etransitivity; [apply sublist_take|apply sublist_drop].
Qed.

(** *** Windows of the emitted chunks *)

Section Windows.
Variable txt : pystr.
Variable base_metadata : gmap string pyval.

(** The keys the loop writes into the metadata of a chunk. *)
Definition loop_keys : list string := ["chunk_index"; "start_char"; "end_char"].

(** What the loop records in a chunk: the window it was cut from, its text
    as the stripped slice of that window, and the caller's metadata under
    every key the loop does not write. *)
Definition chunk_window (c : DocumentChunk) : Prop :=
  (exists s e,
     meta_int c "start_char" = Some s /\
     meta_int c "end_char" = Some e /\
     0 <= s < len txt /\
     s + (chunk_size - overlap) <= e <= s + chunk_size /\
     (e < len txt \/ e = s + chunk_size) /\
     text c = strip (slice txt s e)) /\
  (forall key, key ∉ loop_keys ->
               source_meta c !! key = base_metadata !! key).

(** Every character that is not white space and lies before the cursor is
    inside the window of an emitted chunk. *)
Definition covered_before (st : loop_state) : Prop :=
  forall (p : nat) (x : N),
    txt !! p = Some x -> py_isspace x = false -> Z.of_nat p < start st ->
    exists c s e,
      c ∈ chunks st /\
      meta_int c "start_char" = Some s /\
      meta_int c "end_char" = Some e /\
      s <= Z.of_nat p < e.

Definition windows_inv (st : loop_state) : Prop :=
  Forall chunk_window (chunks st) /\ covered_before st.

Lemma loop_chunk_window i s :
  0 <= s < len txt ->
  chunk_window
    (loop_chunk base_metadata (strip (slice txt s (window_end txt s))) i s
       (window_end txt s)).
Proof.
  intros Hs. split.
  - destruct (loop_chunk_meta base_metadata
                (strip (slice txt s (window_end txt s))) i s
                (window_end txt s)) as (_ & Ms & Me).
    exists s, (window_end txt s). split; [done|]. split; [done|].
    split; [done|].
    pose proof (window_end_bounds txt s (proj1 Hs)) as Hb.
    split; [lia|]. split; [|done].
    destruct (Z.lt_ge_cases (s + chunk_size) (len txt)) as [Hlt|Hge].
    + left. lia.
    + right. by apply window_end_unsnapped.
  - intros key Hkey. unfold loop_chunk, loop_keys in *. simpl.
    assert ("chunk_index" <> key /\ "start_char" <> key /\ "end_char" <> key)
      as (H1 & H2 & H3)
      by (repeat split; intros E; apply Hkey; rewrite <- E;
          repeat first [apply list_elem_of_here | apply list_elem_of_further]).
    by rewrite !lookup_insert_ne.
Qed.

Lemma window_text_nonblank (s e : Z) (p : nat) (x : N) :
  0 <= s -> s <= Z.of_nat p < e ->
  txt !! p = Some x -> py_isspace x = false ->
  x ∈ strip (slice txt s e).
Proof.
  intros Hs Hp Hx Hsp. apply strip_elem; [|done].
  eapply list_elem_of_lookup_2.
  apply (slice_lookup txt s e p x); try done; lia.
Qed.

Lemma windows_inv_body st :
  windows_inv st -> 0 <= start st < len txt ->
  windows_inv (loop_body txt base_metadata st).
Proof.
  intros [Hall Hcov] Hst.
  pose proof (window_end_bounds txt (start st) (proj1 Hst)) as Hb.
  assert (next_start txt (window_end txt (start st))
          <= window_end txt (start st)) as Hnext.
  { destruct (next_start_cases txt (window_end txt (start st)))
      as [[_ ->] | [? ->]]; unfold overlap; lia. }
  unfold loop_body.
  destruct (truthy _) eqn:Htruthy; split; unfold covered_before; simpl.
  - apply Forall_app. split; [done|]. constructor; [|constructor].
    by apply loop_chunk_window.
  - intros p x Hx Hsp Hp.
    destruct (Z.lt_ge_cases (Z.of_nat p) (start st)) as [Hlt|Hge].
    + destruct (Hcov p x Hx Hsp Hlt) as (c & s & e & Hc & Hrest).
      exists c, s, e. split; [|done]. apply elem_of_app. by left.
    + destruct (loop_chunk_meta base_metadata
                  (strip (slice txt (start st) (window_end txt (start st))))
                  (chunk_index st) (start st) (window_end txt (start st)))
        as (_ & Ms & Me).
      eexists _, (start st), (window_end txt (start st)).
      split; [apply elem_of_app; right; apply list_elem_of_here|].
      split; [done|]. split; [done|]. lia.
  - done.
  - intros p x Hx Hsp Hp.
    destruct (Z.lt_ge_cases (Z.of_nat p) (start st)) as [Hlt|Hge];
      [by apply (Hcov p x)|].
    assert (x ∈ strip (slice txt (start st) (window_end txt (start st))))
      as Hin by (apply (window_text_nonblank _ _ p); try done; lia).
    destruct (strip _); [|done]. by apply elem_of_nil in Hin.
Qed.

Lemma windows_inv_iterate n :
  (forall m, (m < n)%nat -> start (iterate txt base_metadata m) < len txt) ->
  windows_inv (iterate txt base_metadata n).
Proof.
  induction n as [|n IH]; intros Hbefore.
  - split; [constructor|]. intros p x _ _ Hp. simpl in Hp. lia.
  - rewrite iterate_succ. apply windows_inv_body.
    + apply IH. intros m Hm. apply Hbefore. lia.
    + split; [apply iterate_start_range|apply Hbefore; lia].
Qed.

(** The loop emits at most one chunk per iteration. *)
Lemma iterate_chunks_length n :
  (length (chunks (iterate txt base_metadata n)) <= n)%nat.
Proof.
  induction n as [|n IH]; [done|].
  rewrite iterate_succ. unfold loop_body.
  destruct (truthy _); simpl; [rewrite length_app; simpl|]; lia.
Qed.

(** While the cursor has stayed before the end, it has advanced by at least
    [chunk_size - 2 * overlap] per iteration, unless it just reached the
    end. *)
Lemma iterate_start_lower n :
  (forall m, (m < n)%nat -> start (iterate txt base_metadata m) < len txt) ->
  start (iterate txt base_metadata n) = len txt \/
  (chunk_size - 2 * overlap) * Z.of_nat n <= start (iterate txt base_metadata n).
Proof.
  induction n as [|n IH]; intros Hbefore.
  - right. simpl. lia.
  - rewrite iterate_succ.
    assert (start (iterate txt base_metadata n) < len txt) as Hlt
      by (apply Hbefore; lia).
    destruct IH as [Hend|Hlow]; [intros m Hm; apply Hbefore; lia|lia|].
    pose proof (iterate_start_range txt base_metadata n) as [H0 _].
    destruct (loop_body_progress txt base_metadata _ (conj H0 Hlt))
      as [[Hend|Hstep] _]; [by left|right]. lia.
Qed.

End Windows.

(** The chunks of a long text, with what the loop keeps about them. *)
Lemma long_text_chunks (input : pystr) (base_metadata : gmap string pyval) :
  chunk_size < len input ->
  exists cs n,
    _create_text_chunks input base_metadata = Some cs /\
    cs = chunks (iterate input base_metadata n) /\
    Forall (chunk_window input base_metadata) cs /\
    (forall (p : nat) (x : N),
       input !! p = Some x -> py_isspace x = false ->
       exists c s e,
         c ∈ cs /\ meta_int c "start_char" = Some s /\
         meta_int c "end_char" = Some e /\ s <= Z.of_nat p < e) /\
    (chunk_size - 2 * overlap) * (Z.of_nat n - 1) < len input.
Proof.
  intros Hlong.
  destruct (create_text_chunks_long input base_metadata Hlong)
    as (n & Hcs & Hend & Hbefore).
  exists (chunks (iterate input base_metadata n)), n.
  split; [done|]. split; [done|].
  destruct (windows_inv_iterate input base_metadata n Hbefore) as [Hall Hcov].
  split; [done|]. split.
  - intros p x Hx Hsp. apply (Hcov p x Hx Hsp).
    apply lookup_lt_Some in Hx. unfold len in *. lia.
  - destruct n as [|n]; [unfold chunk_size, overlap in *; lia|].
    assert (start (iterate input base_metadata n) < len input) as Hlt
      by (apply Hbefore; lia).
    destruct (iterate_start_lower input base_metadata n) as [Heq|Hlow];
      [intros m Hm; apply Hbefore; lia|lia|].
    replace (Z.of_nat (S n) - 1) with (Z.of_nat n) by lia. lia.
Qed.

(** *** Size of a chunk *)

(** No chunk is longer than [chunk_size] characters, whatever the text. *)
Theorem chunk_text_at_most_chunk_size (input : pystr)
    (base_metadata : gmap string pyval) :
  exists cs,
    _create_text_chunks input base_metadata = Some cs /\
    Forall (fun c => len (text c) <= chunk_size) cs.
Proof.
  destruct (Z.le_gt_cases (len input) chunk_size) as [Hshort|Hlong].
  - exists [single_chunk input base_metadata]. unfold _create_text_chunks.
    destruct (Z.leb_spec (len input) chunk_size); [|lia].
    split; [done|]. by repeat constructor.
  - destruct (long_text_chunks input base_metadata) as
      (cs & n & Hcs & _ & Hall & _); [lia|].
    exists cs. split; [done|].
    eapply Forall_impl; [exact Hall|].
    intros c [(s & e & _ & _ & Hs & He & _ & ->) _].
    pose proof (strip_length (slice input s e)) as H1.
    pose proof (slice_length input s e) as H2.
    unfold len in *. unfold chunk_size, overlap in *. lia.
Qed.

(** *** Nothing but white space is dropped *)

(** Every character of the text that is not white space occurs in the text
    of some chunk; for a long text it lies inside the window
    [start_char, end_char) of that chunk. *)
Theorem no_text_lost (input : pystr) (base_metadata : gmap string pyval) :
  exists cs,
    _create_text_chunks input base_metadata = Some cs /\
    forall (p : nat) (x : N),
      input !! p = Some x -> py_isspace x = false ->
      exists c,
        c ∈ cs /\ x ∈ text c /\
        (chunk_size < len input ->
         exists s e,
           meta_int c "start_char" = Some s /\
           meta_int c "end_char" = Some e /\
           s <= Z.of_nat p < e /\
           text c = strip (slice input s e)).
Proof.
  destruct (Z.le_gt_cases (len input) chunk_size) as [Hshort|Hlong].
  - exists [single_chunk input base_metadata]. unfold _create_text_chunks.
    destruct (Z.leb_spec (len input) chunk_size); [|lia].
    split; [done|]. intros p x Hx _.
    exists (single_chunk input base_metadata).
    split; [apply list_elem_of_here|]. split; [|lia].
    simpl. by eapply list_elem_of_lookup_2.
  - destruct (long_text_chunks input base_metadata) as
      (cs & n & Hcs & _ & Hall & Hcov & _); [lia|].
    exists cs. split; [done|]. intros p x Hx Hsp.
    destruct (Hcov p x Hx Hsp) as (c & s & e & Hc & Ms & Me & Hp).
    exists c. split; [done|].
    destruct (proj1 (Forall_forall _ _) Hall c Hc)
      as [(s' & e' & Ms' & Me' & Hs & _ & _ & Htext) _].
    rewrite Ms in Ms'. rewrite Me in Me'.
    injection Ms' as <-. injection Me' as <-.
    split.
    + rewrite Htext. apply (window_text_nonblank input s e p); try done; lia.
    + intros _. by exists s, e.
Qed.

(** A text that gives no chunk has no character but white space. *)
Lemma no_chunks_blank (input : pystr) (base_metadata : gmap string pyval) :
  _create_text_chunks input base_metadata = Some [] ->
  Forall (fun x => py_isspace x = true) input.
Proof.
  intros Hnil.
  destruct (Z.le_gt_cases (len input) chunk_size) as [Hshort|Hlong].
  - unfold _create_text_chunks in Hnil.
    by destruct (Z.leb_spec (len input) chunk_size); [|lia].
  - destruct (long_text_chunks input base_metadata) as
      (cs & n & Hcs & _ & _ & Hcov & _); [lia|].
    rewrite Hcs in Hnil. injection Hnil as ->.
    apply Forall_lookup. intros p x Hx.
    destruct (py_isspace x) eqn:Hsp; [done|].
    destruct (Hcov p x Hx Hsp) as (c & _ & _ & Hc & _).
    by apply elem_of_nil in Hc.
Qed.

(** A long text gives no chunk at all exactly when it is white space
    only; a text of at most [chunk_size] characters always gives one
    chunk, even when it is empty. *)
Theorem no_chunks_iff_long_and_blank (input : pystr)
    (base_metadata : gmap string pyval) :
  _create_text_chunks input base_metadata = Some [] <->
  chunk_size < len input /\ Forall (fun x => py_isspace x = true) input.
Proof.
  destruct (Z.le_gt_cases (len input) chunk_size) as [Hshort|Hlong].
  - unfold _create_text_chunks.
    destruct (Z.leb_spec (len input) chunk_size); [|lia].
    split; [done|]. intros [? _]. lia.
  - destruct (long_text_chunks input base_metadata) as
      (cs & n & Hcs & _ & Hall & Hcov & _); [lia|].
    split.
    + intros Hnil. split; [lia|]. by eapply no_chunks_blank.
    + rewrite Hcs. intros [_ Hblank]. f_equal.
      destruct cs as [|c cs]; [done|].
      apply Forall_cons in Hall as [[(s & e & _ & _ & _ & _ & _ & Htext) _] _].
      destruct (create_text_chunks_long input base_metadata)
        as (n' & Hcs' & _ & Hbefore); [lia|].
      pose proof (iterate_inv input base_metadata false n' Hbefore) as Hinv.
      destruct Hinv as [_ _ Hchunk _ _]; [done|].
      rewrite Hcs in Hcs'. injection Hcs' as Hcs'.
      destruct (Hchunk 0%nat c) as (_ & _ & Hne & _);
        [by rewrite <- Hcs'|].
      destruct Hne. rewrite Htext. apply strip_blank.
      apply Forall_forall. intros x Hx.
      apply slice_elem_of in Hx.
      exact (proj1 (Forall_forall _ _) Hblank x Hx).
Qed.

(** *** Identifiers *)

(** The id and the index of a chunk are given by its position. *)
Lemma chunk_ids_by_position (input : pystr)
    (base_metadata : gmap string pyval) :
  exists cs,
    _create_text_chunks input base_metadata = Some cs /\
    forall i c, cs !! i = Some c ->
      chunk_id c = lit "chunk_" ++ str_int (Z.of_nat i) /\
      meta_int c "chunk_index" = Some (Z.of_nat i).
Proof.
  destruct (Z.le_gt_cases (len input) chunk_size) as [Hshort|Hlong].
  - exists [single_chunk input base_metadata]. unfold _create_text_chunks.
    destruct (Z.leb_spec (len input) chunk_size); [|lia].
    split; [done|]. intros [|i] c Hc; [|done]. injection Hc as <-.
    split; [done|]. unfold meta_int, single_chunk. simpl.
    by rewrite lookup_insert_eq.
  - destruct (create_text_chunks_long input base_metadata)
      as (n & Hcs & _ & Hbefore); [lia|].
    exists (chunks (iterate input base_metadata n)). split; [done|].
    pose proof (iterate_inv input base_metadata false n Hbefore) as Hinv.
    destruct Hinv as [_ _ Hchunk _ _]; [done|].
    intros i c Hc. destruct (Hchunk i c Hc) as (? & ? & _). done.
Qed.

(** Within one call the id of the chunk at position [i] is [chunk_i], so no
    two chunks of a call share an id. *)
Theorem chunk_ids_distinct (input : pystr) (base_metadata : gmap string pyval) :
  exists cs,
    _create_text_chunks input base_metadata = Some cs /\
    (forall i c, cs !! i = Some c ->
       chunk_id c = lit "chunk_" ++ str_int (Z.of_nat i) /\
       meta_int c "chunk_index" = Some (Z.of_nat i)) /\
    NoDup (chunk_id <$> cs).
Proof.
  destruct (chunk_ids_by_position input base_metadata) as (cs & Hcs & Hid).
  exists cs. split; [done|]. split; [done|].
  apply NoDup_alt. intros i j x Hi Hj.
  apply list_lookup_fmap_Some in Hi as (c & -> & Hci).
  apply list_lookup_fmap_Some in Hj as (c' & Hj & Hcj).
  destruct (Hid i c Hci) as [Ei _]. destruct (Hid j c' Hcj) as [Ej _].
  rewrite Ei, Ej in Hj.
  apply app_inv_head, str_int_inj in Hj. lia.
Qed.

(** *** Metadata *)

(** No branch touches a key other than the three the loop writes. *)
Lemma chunks_keep_other_keys (input : pystr)
    (base_metadata : gmap string pyval) :
  exists cs,
    _create_text_chunks input base_metadata = Some cs /\
    forall c key, c ∈ cs -> key ∉ loop_keys ->
      source_meta c !! key = base_metadata !! key.
Proof.
  destruct (Z.le_gt_cases (len input) chunk_size) as [Hshort|Hlong].
  - exists [single_chunk input base_metadata]. unfold _create_text_chunks.
    destruct (Z.leb_spec (len input) chunk_size); [|lia].
    split; [done|]. intros c key Hc Hkey.
    apply list_elem_of_singleton in Hc as ->. simpl.
    apply lookup_insert_ne. intros <-. apply Hkey. apply list_elem_of_here.
  - destruct (long_text_chunks input base_metadata) as
      (cs & n & Hcs & _ & Hall & _); [lia|].
    exists cs. split; [done|]. intros c key Hc Hkey.
    destruct (proj1 (Forall_forall _ _) Hall c Hc) as [_ Hkeep].
    by apply Hkeep.
Qed.

(** A chunk keeps the caller's metadata under every key but [chunk_index],
    [start_char] and [end_char], and its [chunk_index] is the one the
    chunker sets, whatever the caller passed under that key; the chunk of a
    short text keeps the caller's [start_char] and [end_char] as well,
    since that branch records no offsets. *)
Theorem chunk_keeps_base_metadata (input : pystr)
    (base_metadata : gmap string pyval) :
  exists cs,
    _create_text_chunks input base_metadata = Some cs /\
    (forall c key, c ∈ cs ->
       key ∉ ["chunk_index"; "start_char"; "end_char"] ->
       source_meta c !! key = base_metadata !! key) /\
    (forall i c, cs !! i = Some c ->
       source_meta c !! "chunk_index" = Some (PInt (Z.of_nat i))) /\
    (len input <= chunk_size ->
     forall c key, c ∈ cs -> key <> "chunk_index" ->
       source_meta c !! key = base_metadata !! key).
Proof.
  destruct (Z.le_gt_cases (len input) chunk_size) as [Hshort|Hlong].
  - exists [single_chunk input base_metadata]. unfold _create_text_chunks.
    destruct (Z.leb_spec (len input) chunk_size); [|lia].
    split; [done|].
    assert (forall c key, c ∈ [single_chunk input base_metadata] ->
              key <> "chunk_index" ->
              source_meta c !! key = base_metadata !! key) as Hkeep.
    { intros c key Hc Hkey. apply list_elem_of_singleton in Hc as ->.
      simpl. by rewrite lookup_insert_ne. }
    split; [|split; [|done]].
    + intros c key Hc Hkey. apply Hkeep; [done|].
      intros ->. apply Hkey. apply list_elem_of_here.
    + intros [|i] c Hc; [|done]. injection Hc as <-. simpl.
      by rewrite lookup_insert_eq.
  - destruct (long_text_chunks input base_metadata) as
      (cs & n & Hcs & -> & Hall & _); [lia|].
    destruct (create_text_chunks_long input base_metadata)
      as (n' & Hcs' & _ & Hbefore); [lia|].
    rewrite Hcs in Hcs'. injection Hcs' as Hsame.
    eexists. split; [done|]. split; [|split; [|lia]].
    + intros c key Hc Hkey.
      destruct (proj1 (Forall_forall _ _) Hall c Hc) as [_ Hkeep].
      by apply Hkeep.
    + intros i c Hc. rewrite Hsame in Hc.
      pose proof (iterate_inv input base_metadata false n' Hbefore) as Hinv.
      destruct Hinv as [_ _ Hchunk _ _]; [done|].
      destruct (Hchunk i c Hc) as (Hidx & _).
      unfold meta_int in Hidx.
      destruct (source_meta c !! "chunk_index") as [[z|?]|]; try done.
      by injection Hidx as ->.
Qed.

(** *** Number of chunks *)

(** A text of [n] characters gives at most [n / 600 + 1] chunks. *)
Theorem chunk_count_bound (input : pystr) (base_metadata : gmap string pyval) :
  exists cs,
    _create_text_chunks input base_metadata = Some cs /\
    len cs <= len input / (chunk_size - 2 * overlap) + 1.
Proof.
  pose proof (len_nonneg input) as Hlen.
  destruct (Z.le_gt_cases (len input) chunk_size) as [Hshort|Hlong].
  - exists [single_chunk input base_metadata]. unfold _create_text_chunks.
    destruct (Z.leb_spec (len input) chunk_size); [|lia].
    split; [done|].
    assert (0 <= len input / (chunk_size - 2 * overlap))
      by (apply Z.div_pos; unfold chunk_size, overlap; lia).
    unfold len at 1. simpl. lia.
  - destruct (long_text_chunks input base_metadata) as
      (cs & n & Hcs & -> & _ & _ & Hbound); [lia|].
    eexists. split; [done|].
    pose proof (iterate_chunks_length input base_metadata n) as Hn.
    assert (Z.of_nat n - 1 <= len input / (chunk_size - 2 * overlap)).
    { apply Z.div_le_lower_bound; unfold chunk_size, overlap in *; lia. }
    unfold len at 1. lia.
Qed.

(** *** Offsets *)

(** For a long text every chunk records a window that starts inside the
    text and is 800 to 1000 characters wide; its end is before the end of
    the text, or is the unsnapped [start_char + 1000], which can exceed the
    length of the text; and the text of the chunk is the stripped slice of
    the input between its two offsets. *)
Theorem chunk_offsets (input : pystr) (base_metadata : gmap string pyval) :
  chunk_size < len input ->
  exists cs,
    _create_text_chunks input base_metadata = Some cs /\
    forall c, c ∈ cs ->
      exists s e,
        meta_int c "start_char" = Some s /\
        meta_int c "end_char" = Some e /\
        0 <= s < len input /\
        s + 800 <= e <= s + 1000 /\
        (e < len input \/ e = s + 1000) /\
        text c = strip (slice input s e).
Proof.
  intros Hlong.
  destruct (long_text_chunks input base_metadata) as
    (cs & n & Hcs & _ & Hall & _); [lia|].
  exists cs. split; [done|]. intros c Hc.
  destruct (proj1 (Forall_forall _ _) Hall c Hc)
    as [(s & e & Ms & Me & Hs & He & Hend & Htext) _].
  exists s, e. unfold chunk_size, overlap in *. repeat split; try done; lia.
Qed.

(** 1001 letters: the last window is [800:1800] on a text of 1001
    characters. *)
Lemma chunk_offsets_witness :
  chunk_size < len (replicate 1001 97%N) /\
  exists cs,
    _create_text_chunks (replicate 1001 97%N) ∅ = Some cs /\
    forall c, c ∈ cs ->
      exists s e,
        meta_int c "start_char" = Some s /\
        meta_int c "end_char" = Some e /\
        0 <= s < len (replicate 1001 97%N) /\
        s + 800 <= e <= s + 1000 /\
        (e < len (replicate 1001 97%N) \/ e = s + 1000) /\
        text c = strip (slice (replicate 1001 97%N) s e).
Proof.
  split; [vm_compute; reflexivity|].
  apply (chunk_offsets (replicate 1001 97%N) ∅). vm_compute; reflexivity.
Defined.

(** *** Plain text files *)

(** A string has a character that is not white space exactly when its
    stripped form is not empty. *)
Lemma strip_nonempty_iff s :
  strip s <> [] <-> exists x, x ∈ s /\ py_isspace x = false.
Proof.
  split.
  - intros Hne. destruct (strip s) as [|x rest] eqn:E; [done|].
    exists x. split.
    + apply strip_elem_of. rewrite E. apply list_elem_of_here.
    + destruct (strip_trimmed s) as [Hhead _]. rewrite E in Hhead.
      by apply Hhead.
  - intros (x & Hin & Hsp) E.
    pose proof (strip_elem x s Hin Hsp) as H. rewrite E in H.
    by apply elem_of_nil in H.
Qed.

Lemma nonblank_text_has_chunks (input : pystr)
    (base_metadata : gmap string pyval) :
  strip input <> [] -> _create_text_chunks input base_metadata <> Some [].
Proof.
  intros Hne Hnil.
  apply no_chunks_blank in Hnil. by apply strip_blank in Hnil.
Qed.

(** [_process_text] gives no chunk exactly for a blank file; every chunk it
    gives is tagged as [text], carries the URL, and has no page number. *)
Theorem process_text_chunks (content source_url : pystr) :
  exists cs,
    _process_text content source_url = Some cs /\
    (cs = [] <-> strip content = []) /\
    forall c, c ∈ cs ->
      source_meta c !! "document_type" = Some (PStr (lit "text")) /\
      source_meta c !! "source_url" = Some (PStr source_url) /\
      source_meta c !! "page" = None.
Proof.
  unfold _process_text.
  destruct (strip content) as [|x rest] eqn:Hstrip; simpl.
  - exists []. split; [done|]. split; [done|].
    intros c Hc. by apply elem_of_nil in Hc.
  - set (base := <["document_type" := PStr (lit "text")]>
                   (<["source_url" := PStr source_url]> ∅)).
    destruct (chunks_keep_other_keys content base) as (cs & Hcs & Hkeep).
    exists cs. split; [done|]. split.
    + split; [|done]. intros ->.
      destruct (nonblank_text_has_chunks content base); [|done].
      by rewrite Hstrip.
    + intros c Hc.
      assert (forall key, key <> "chunk_index" -> key <> "start_char" ->
                key <> "end_char" ->
                source_meta c !! key = base !! key) as Hk.
      { intros key ? ? ?. apply Hkeep; [done|]. unfold loop_keys.
        intros Hin.
        repeat (apply elem_of_cons in Hin as [?|Hin]; [done|]).
        by apply elem_of_nil in Hin. }
      rewrite !Hk by done. subst base.
      rewrite lookup_insert_eq.
      rewrite lookup_insert_ne by done. rewrite lookup_insert_eq.
      rewrite !lookup_insert_ne by done. by rewrite lookup_empty.
Qed.

(** *** Chunks of a long text are trimmed *)

Lemma long_text_chunks_trimmed_witness :
  chunk_size < len (replicate 1001 97%N) /\
  exists cs,
    _create_text_chunks (replicate 1001 97%N) ∅ = Some cs /\
    forall c, c ∈ cs -> text c <> [] /\ trimmed (text c).
Proof.
  split; [vm_compute; reflexivity|].
  apply (long_text_chunks_trimmed (replicate 1001 97%N) ∅).
  vm_compute; reflexivity.
Defined.

End ChunkerExtras.

(** * Document files

    [process_document_from_url] and the three parsers it dispatches to. The
    download and the parsing libraries are the fields of [DocumentSource].
    The temporary file only carries the downloaded bytes to the parser, so
    the parsers are given the bytes. *)

Class DocumentSource : Type := {
  content : Type;
  (** [requests.get(url, timeout=30)] and [raise_for_status()]: the body
      and the [content-type] header, the empty string when it is absent *)
  http_get : pystr -> outcome (content * pystr);
  (** [urlparse(url).path] *)
  url_path : pystr -> pystr;
  (** [str.lower] *)
  lower : pystr -> pystr;
  (** [fitz.open] and [page.get_text()] of every page, in order *)
  pdf_page_texts : content -> outcome (list pystr);
  (** [Document]: the text of every paragraph, and the cell texts of every
      row of every table *)
  docx_parts : content -> outcome (list pystr * list (list (list pystr)));
  (** [open(path, 'r', encoding='utf-8').read()] *)
  read_utf8 : content -> outcome pystr
}.

(** [s.startswith(prefix)] *)
Fixpoint startswith (s prefix : pystr) : bool :=
  match prefix, s with
  | [], _ => true
  | p :: prefix', c :: s' => (c =? p)%N && startswith s' prefix'
  | _ :: _, [] => false
  end.

(** [s.endswith(suffix)] *)
Definition endswith (s suffix : pystr) : bool :=
  startswith (reverse s) (reverse suffix).

(** [sub in s] *)
Fixpoint contains (s sub : pystr) : bool :=
  startswith s sub ||
  match s with
  | [] => false
  | _ :: s' => contains s' sub
  end.

Module DocumentFiles.
Import DocumentProcessor.

(** The list [_create_text_chunks] returns; its loop always finishes
    ([ChunkerProofs.create_text_chunks_total]). *)
Definition text_chunks (text : pystr) (base_metadata : gmap string pyval)
    : list DocumentChunk :=
  default [] (_create_text_chunks text base_metadata).

Section WithSource.
Context {S : DocumentSource}.

Definition _get_file_extension (url content_type : pystr) : pystr :=
  let path := lower (url_path url) in
  if endswith path (lit ".pdf") then lit ".pdf"
  else if endswith path (lit ".docx") then lit ".docx"
  else if contains (lower content_type) (lit "pdf") then lit ".pdf"
  else if contains (lower content_type) (lit "word") then lit ".docx"
  else lit ".pdf".

Definition pdf_metadata (source_url : pystr) (page_num total_pages : Z)
    : gmap string pyval :=
  <["total_pages" := PInt total_pages]>
    (<["document_type" := PStr (lit "pdf")]>
       (<["page" := PInt (page_num + 1)]>
          (<["source_url" := PStr source_url]> ∅))).

(** The [for page_num in range(len(doc))] loop. *)
Fixpoint pdf_loop (source_url : pystr) (total_pages : Z)
    (pages : list pystr) (page_num : Z) (chunks : list DocumentChunk)
    : list DocumentChunk :=
  match pages with
  | [] => chunks
  | page_text :: rest =>
      if truthy (strip page_text) then
        pdf_loop source_url total_pages rest (page_num + 1)
          (chunks ++ text_chunks page_text
                       (pdf_metadata source_url page_num total_pages))
      else pdf_loop source_url total_pages rest (page_num + 1) chunks
  end.

Definition _process_pdf (file : content) (source_url : pystr)
    : outcome (list DocumentChunk) :=
  match pdf_page_texts file with
  | Ok pages => Ok (pdf_loop source_url (len pages) pages 0 [])
  | Raise e => Raise (lit "Failed to process PDF: " ++ e)
  end.

(** [full_text += paragraph.text + "\n\n"] for a paragraph that is not
    blank. *)
Definition add_paragraph (full_text paragraph : pystr) : pystr :=
  if truthy (strip paragraph) then full_text ++ paragraph ++ nl ++ nl
  else full_text.

Definition add_cell (row_text : list pystr) (cell : pystr) : list pystr :=
  if truthy (strip cell) then row_text ++ [strip cell] else row_text.

(** [full_text += " | ".join(row_text) + "\n"] for a row with a cell that
    is not blank. *)
Definition add_row (full_text : pystr) (row : list pystr) : pystr :=
  match foldl add_cell [] row with
  | [] => full_text
  | row_text => full_text ++ join (lit " | ") row_text ++ nl
  end.

Definition docx_full_text (paragraphs : list pystr)
    (tables : list (list (list pystr))) : pystr :=
  foldl (foldl add_row) (foldl add_paragraph [] paragraphs) tables.

Definition docx_metadata (source_url : pystr) : gmap string pyval :=
  <["document_type" := PStr (lit "docx")]>
    (<["source_url" := PStr source_url]> ∅).

Definition _process_docx (file : content) (source_url : pystr)
    : outcome (list DocumentChunk) :=
  match docx_parts file with
  | Ok (paragraphs, tables) =>
      let full_text := docx_full_text paragraphs tables in
      if truthy (strip full_text) then
        Ok (text_chunks full_text (docx_metadata source_url))
      else Ok []
  | Raise e => Raise (lit "Failed to process DOCX: " ++ e)
  end.

Definition text_metadata (source_url : pystr) : gmap string pyval :=
  <["document_type" := PStr (lit "text")]>
    (<["source_url" := PStr source_url]> ∅).

Definition _process_text_file (file : content) (source_url : pystr)
    : outcome (list DocumentChunk) :=
  match read_utf8 file with
  | Ok text =>
      if truthy (strip text) then
        Ok (text_chunks text (text_metadata source_url))
      else Ok []
  | Raise e => Raise (lit "Failed to process text file: " ++ e)
  end.

Definition failed_document (e : pystr) : pystr :=
  lit "Failed to process document: " ++ e.

Definition process_document_from_url (url : pystr)
    : outcome (list DocumentChunk) :=
  let result :=
    '(file, content_type) ← http_get url;
    let file_extension := _get_file_extension url content_type in
    if bool_decide (file_extension = lit ".pdf") then _process_pdf file url
    else if bool_decide (file_extension ∈ [lit ".docx"; lit ".doc"]) then
      _process_docx file url
    else _process_text_file file url in
  match result with
  | Ok chunks => Ok chunks
  | Raise e => Raise (failed_document e)
  end.

End WithSource.
End DocumentFiles.

(** A pipeline backend whose documents come from a [DocumentSource]. *)
Definition with_source (B : Backend) (S : DocumentSource) : Backend :=
  {| vec := vec; score := score; faiss_index := faiss_index;
     encode := encode; index_new := index_new; index_reset := index_reset;
     index_add := index_add; index_search := index_search;
     score_ge := score_ge;
     default_score_threshold := default_score_threshold;
     format_2f := format_2f; generate_content := generate_content;
     process_document_from_url := DocumentFiles.process_document_from_url |}.

(** ** A sample document source

    The body of a download is a string. A URL ending in [.missing] is not
    found; any other URL serves the text after its last [/], declared as
    [text/plain]. A body that starts with [%PDF] opens as a PDF of one page
    per line, a body that starts with [PK] as a DOCX of one paragraph per
    line and no table. The path of a URL is the URL, and no character has a
    case. *)

Module SampleSource.

Fixpoint after_last_slash (s acc : pystr) : pystr :=
  match s with
  | [] => acc
  | c :: s' => if (c =? 47)%N then after_last_slash s' s'
               else after_last_slash s' acc
  end.

Fixpoint lines (s line : pystr) : list pystr :=
  match s with
  | [] => [line]
  | c :: s' => if (c =? 10)%N then line :: lines s' []
               else lines s' (line ++ [c])
  end.

Definition get (url : pystr) : outcome (pystr * pystr) :=
  if endswith url (lit ".missing") then Raise (lit "404 Client Error")
  else Ok (after_last_slash url url, lit "text/plain").

Definition pages (file : pystr) : outcome (list pystr) :=
  if startswith file (lit "%PDF") then Ok (lines file [])
  else Raise (lit "Failed to open file").

Definition paragraphs (file : pystr)
    : outcome (list pystr * list (list (list pystr))) :=
  if startswith file (lit "PK") then Ok (lines file [], [])
  else Raise (lit "File is not a zip file").

Definition source : DocumentSource :=
  {| content := pystr;
     http_get := get;
     url_path := fun url => url;
     lower := fun s => s;
     pdf_page_texts := pages;
     docx_parts := paragraphs;
     read_utf8 := fun file => Ok file |}.

End SampleSource.

(** ** Properties of the parsers *)

Module DocumentFilesProofs.
Import DocumentProcessor ChunkerProofs ChunkerExtras DocumentFiles.

Lemma text_chunks_eq (input : pystr) (base_metadata : gmap string pyval) :
  _create_text_chunks input base_metadata
  = Some (text_chunks input base_metadata).
Proof.
  unfold text_chunks.
  by destruct (create_text_chunks_total input base_metadata) as [cs ->].
Qed.

Lemma text_chunks_nonblank (input : pystr)
    (base_metadata : gmap string pyval) :
  strip input <> [] ->
  exists c,
    text_chunks input base_metadata !! 0%nat = Some c /\
    chunk_id c = lit "chunk_0".
Proof.
  intros Hne.
  pose proof (nonblank_text_has_chunks input base_metadata Hne) as Hsome.
  destruct (chunk_ids_by_position input base_metadata) as (cs & Hcs & Hid).
  rewrite text_chunks_eq in Hsome, Hcs. injection Hcs as <-.
  destruct (text_chunks input base_metadata) as [|c cs]; [done|].
  exists c. split; [done|]. by destruct (Hid 0%nat c eq_refl) as [-> _].
Qed.

Lemma text_chunks_metadata (input : pystr)
    (base_metadata : gmap string pyval) (c : DocumentChunk) (key : string) :
  c ∈ text_chunks input base_metadata ->
  key ∉ loop_keys ->
  source_meta c !! key = base_metadata !! key.
Proof.
  intros Hc Hkey.
  destruct (chunks_keep_other_keys input base_metadata)
    as (cs & Hcs & Hkeep).
  rewrite text_chunks_eq in Hcs. injection Hcs as <-. by apply Hkeep.
Qed.

Section WithSource.
Context {S : DocumentSource}.

(** *** PDF *)

(** The chunks of the page at position [k], counted from [page_num]. *)
Definition page_chunks (source_url : pystr) (total_pages page_num : Z)
    (k : nat) (page_text : pystr) : list DocumentChunk :=
  if truthy (strip page_text) then
    text_chunks page_text
      (pdf_metadata source_url (page_num + Z.of_nat k) total_pages)
  else [].

Lemma pdf_loop_spec source_url total_pages pages : forall page_num chunks,
  pdf_loop source_url total_pages pages page_num chunks =
  chunks ++
  mjoin (imap (page_chunks source_url total_pages page_num) pages).
Proof.
  induction pages as [|page_text rest IH]; intros page_num chunks; simpl.
  - by rewrite app_nil_r.
  - unfold page_chunks at 1. rewrite Z.add_0_r.
    assert (imap (page_chunks source_url total_pages page_num ∘ Datatypes.S)
              rest
            = imap (page_chunks source_url total_pages (page_num + 1)) rest)
      as ->.
    { apply imap_ext. intros k x _. unfold page_chunks. simpl.
      by replace (page_num + 1 + Z.of_nat k)
        with (page_num + Z.of_nat (Datatypes.S k)) by lia. }
    destruct (truthy (strip page_text)); rewrite IH; [|done].
    by rewrite <- app_assoc.
Qed.

Lemma pdf_chunks_elem source_url (pages : list pystr) (c : DocumentChunk) :
  c ∈ pdf_loop source_url (len pages) pages 0 [] <->
  exists (p : nat) page_text,
    pages !! p = Some page_text /\ strip page_text <> [] /\
    c ∈ text_chunks page_text
          (pdf_metadata source_url (Z.of_nat p) (len pages)).
Proof.
  rewrite pdf_loop_spec. simpl. rewrite list_elem_of_join. split.
  - intros (l & Hc & Hl).
    apply list_elem_of_lookup in Hl as [p Hp].
    rewrite list_lookup_imap in Hp.
    destruct (pages !! p) as [page_text|] eqn:Hpage; [|done].
    simpl in Hp. injection Hp as <-. unfold page_chunks in Hc.
    exists p, page_text. split; [done|].
    destruct (strip page_text) eqn:E; simpl in Hc.
    + by apply elem_of_nil in Hc.
    + split; [done|]. by rewrite Z.add_0_l in Hc.
  - intros (p & page_text & Hpage & Hne & Hc).
    exists (page_chunks source_url (len pages) 0 p page_text). split.
    + unfold page_chunks. rewrite Z.add_0_l.
      by destruct (strip page_text).
    + eapply list_elem_of_lookup_2 with (i := p).
      by rewrite list_lookup_imap, Hpage.
Qed.

(** Every chunk of a PDF is tagged [pdf], carries the URL, the number of
    pages of the document, blank ones included, and the 1-based number of
    its page, which is a page with text. *)
Theorem pdf_chunks_carry_their_page (file : content) (source_url : pystr)
    (pages : list pystr) :
  pdf_page_texts file = Ok pages ->
  exists cs,
    _process_pdf file source_url = Ok cs /\
    forall c, c ∈ cs ->
      exists (p : nat) page_text,
        pages !! p = Some page_text /\ strip page_text <> [] /\
        source_meta c !! "page" = Some (PInt (Z.of_nat p + 1)) /\
        1 <= Z.of_nat p + 1 <= len pages /\
        source_meta c !! "total_pages" = Some (PInt (len pages)) /\
        source_meta c !! "document_type" = Some (PStr (lit "pdf")) /\
        source_meta c !! "source_url" = Some (PStr source_url).
Proof.
  intros Hpages. unfold _process_pdf. rewrite Hpages.
  eexists. split; [done|]. intros c Hc.
  apply pdf_chunks_elem in Hc as (p & page_text & Hpage & Hne & Hc).
  exists p, page_text. split; [done|]. split; [done|].
  assert (forall key, key ∉ loop_keys ->
            source_meta c !! key
            = pdf_metadata source_url (Z.of_nat p) (len pages) !! key) as Hk
    by (intros key Hkey; by eapply text_chunks_metadata).
  assert (forall key, key ∈ ["page"; "total_pages"; "document_type";
                              "source_url"] -> key ∉ loop_keys) as Hfree.
  { intros key Hin Hloop. unfold loop_keys in Hloop.
    repeat (apply elem_of_cons in Hin as [->|Hin];
            [repeat (apply elem_of_cons in Hloop as [?|Hloop]; [done|]);
             by apply elem_of_nil in Hloop|]).
    by apply elem_of_nil in Hin. }
  rewrite !Hk by (apply Hfree;
    repeat first [apply list_elem_of_here | apply list_elem_of_further]).
  unfold pdf_metadata.
  apply lookup_lt_Some in Hpage. unfold len.
  split; [by rewrite !lookup_insert_ne, lookup_insert_eq by done|].
  split; [lia|].
  split; [by rewrite lookup_insert_eq|].
  split; [by rewrite lookup_insert_ne, lookup_insert_eq by done|].
  by rewrite !lookup_insert_ne, lookup_insert_eq by done.
Qed.

(** The chunk index restarts on every page: two pages with text give two
    different chunks with the same id [chunk_0]. *)
Theorem pdf_chunk_ids_repeat_across_pages (file : content)
    (source_url : pystr) (pages : list pystr) (p q : nat)
    (text_p text_q : pystr) :
  pdf_page_texts file = Ok pages ->
  pages !! p = Some text_p -> pages !! q = Some text_q ->
  p <> q -> strip text_p <> [] -> strip text_q <> [] ->
  exists cs c c',
    _process_pdf file source_url = Ok cs /\
    c ∈ cs /\ c' ∈ cs /\ c <> c' /\
    chunk_id c = lit "chunk_0" /\ chunk_id c' = lit "chunk_0" /\
    source_meta c !! "page" = Some (PInt (Z.of_nat p + 1)) /\
    source_meta c' !! "page" = Some (PInt (Z.of_nat q + 1)).
Proof.
  intros Hpages Hp Hq Hpq Hnp Hnq. unfold _process_pdf. rewrite Hpages.
  destruct (text_chunks_nonblank text_p
              (pdf_metadata source_url (Z.of_nat p) (len pages)) Hnp)
    as (c & Hc & Hid).
  destruct (text_chunks_nonblank text_q
              (pdf_metadata source_url (Z.of_nat q) (len pages)) Hnq)
    as (c' & Hc' & Hid').
  apply list_elem_of_lookup_2 in Hc, Hc'.
  assert (forall (k : nat) t d,
            d ∈ text_chunks t (pdf_metadata source_url (Z.of_nat k)
                                 (len pages)) ->
            source_meta d !! "page" = Some (PInt (Z.of_nat k + 1))) as Hpage.
  { intros k t d Hd.
    rewrite (text_chunks_metadata _ _ d "page" Hd).
    - unfold pdf_metadata. rewrite lookup_insert_ne by done.
      rewrite lookup_insert_ne by done. by rewrite lookup_insert_eq.
    - unfold loop_keys. intros Hin.
      repeat (apply elem_of_cons in Hin as [?|Hin]; [done|]).
      by apply elem_of_nil in Hin. }
  exists (pdf_loop source_url (len pages) pages 0 []), c, c'.
  split; [done|].
  split; [apply pdf_chunks_elem; by exists p, text_p|].
  split; [apply pdf_chunks_elem; by exists q, text_q|].
  pose proof (Hpage p text_p c Hc) as Pc.
  pose proof (Hpage q text_q c' Hc') as Pc'.
  split; [|done].
  intros ->. rewrite Pc in Pc'. injection Pc' as E. lia.
Qed.

(** *** DOCX *)

(** A string with a character that is not white space. *)
Definition inked (s : pystr) : Prop := strip s <> [].

Lemma inked_iff s : inked s <-> exists x, x ∈ s /\ py_isspace x = false.
Proof. apply strip_nonempty_iff. Qed.

Lemma truthy_strip s : truthy (strip s) = true <-> inked s.
Proof. apply truthy_nonempty. Qed.

Lemma inked_app a b : inked (a ++ b) <-> inked a \/ inked b.
Proof.
  rewrite !inked_iff. split.
  - intros (x & Hin & Hx). apply elem_of_app in Hin as [?|?]; eauto.
  - intros [(x & Hin & Hx)|(x & Hin & Hx)]; exists x;
      (split; [apply elem_of_app; eauto|done]).
Qed.

Lemma not_inked_nl : ~ inked nl.
Proof. intros H. by apply H. Qed.

(** Stages of [full_text]: empty, or ended by a newline. *)
Definition newline_ended (s : pystr) : Prop := s = [] \/ last s = Some 10%N.

Lemma add_paragraph_inked acc p :
  inked (add_paragraph acc p) <-> inked acc \/ inked p.
Proof.
  unfold add_paragraph. destruct (truthy (strip p)) eqn:E.
  - rewrite !inked_app. pose proof not_inked_nl. tauto.
  - assert (~ inked p) by (rewrite <- truthy_strip; congruence). tauto.
Qed.

Lemma add_paragraph_newline acc p :
  newline_ended acc -> newline_ended (add_paragraph acc p).
Proof.
  unfold add_paragraph. destruct (truthy (strip p)); [|done].
  intros _. right. unfold nl. rewrite !app_assoc. apply last_snoc.
Qed.

Lemma paragraphs_inked ps : forall acc,
  inked (foldl add_paragraph acc ps) <-> inked acc \/ Exists inked ps.
Proof.
  induction ps as [|p ps IH]; intros acc; simpl.
  - rewrite Exists_nil. tauto.
  - rewrite IH, add_paragraph_inked, Exists_cons. tauto.
Qed.

Lemma paragraphs_newline ps : forall acc,
  newline_ended acc -> newline_ended (foldl add_paragraph acc ps).
Proof.
  induction ps as [|p ps IH]; intros acc H; simpl; [done|].
  by apply IH, add_paragraph_newline.
Qed.

Lemma cells_spec row : forall row_text,
  Forall inked row_text ->
  Forall inked (foldl add_cell row_text row) /\
  (foldl add_cell row_text row <> [] <->
   row_text <> [] \/ Exists inked row).
Proof.
  induction row as [|cell row IH]; intros row_text Hall; simpl.
  - split; [done|]. rewrite Exists_nil. tauto.
  - unfold add_cell at 2 4. destruct (truthy (strip cell)) eqn:E.
    + apply truthy_strip in E.
      destruct (IH (row_text ++ [strip cell])) as [H1 H2].
      { apply Forall_app. split; [done|]. constructor; [|done].
        apply inked_iff. apply inked_iff in E as (x & Hin & Hx).
        exists x. split; [by apply strip_elem|done]. }
      split; [done|]. rewrite H2, Exists_cons. split; [tauto|].
      intros _. left. by destruct row_text.
    + assert (~ inked cell) by (rewrite <- truthy_strip; congruence).
      destruct (IH row_text Hall) as [H1 H2].
      split; [done|]. rewrite H2, Exists_cons. tauto.
Qed.

Lemma join_inked sep (parts : list pystr) :
  Forall inked parts -> parts <> [] -> inked (join sep parts).
Proof.
  intros Hall Hne. destruct parts as [|p ps]; [done|].
  apply Forall_cons in Hall as [Hp _]. simpl.
  destruct ps; [done|]. apply inked_app. by left.
Qed.

Lemma add_row_inked acc row :
  inked (add_row acc row) <-> inked acc \/ Exists inked row.
Proof.
  unfold add_row.
  destruct (cells_spec row []) as [Hall Hne]; [constructor|].
  destruct (foldl add_cell [] row) as [|c cs] eqn:E.
  - assert (~ Exists inked row) by (intros H; by apply Hne; [right|]).
    tauto.
  - rewrite !inked_app. pose proof not_inked_nl.
    assert (Exists inked row) by (apply Hne in E || (by destruct Hne as [[?|?] _])).
    assert (inked (join (lit " | ") (c :: cs)))
      by (by apply join_inked). tauto.
Qed.

Lemma add_row_newline acc row :
  newline_ended acc -> newline_ended (add_row acc row).
Proof.
  unfold add_row. destruct (foldl add_cell [] row); [done|].
  intros _. right. unfold nl. rewrite !app_assoc. apply last_snoc.
Qed.

Lemma rows_inked table : forall acc,
  inked (foldl add_row acc table) <-> inked acc \/ Exists (Exists inked) table.
Proof.
  induction table as [|row table IH]; intros acc; simpl.
  - rewrite Exists_nil. tauto.
  - rewrite IH, add_row_inked, Exists_cons. tauto.
Qed.

Lemma rows_newline table : forall acc,
  newline_ended acc -> newline_ended (foldl add_row acc table).
Proof.
  induction table as [|row table IH]; intros acc H; simpl; [done|].
  by apply IH, add_row_newline.
Qed.

Lemma tables_inked tables : forall acc,
  inked (foldl (foldl add_row) acc tables) <->
  inked acc \/ Exists (Exists (Exists inked)) tables.
Proof.
  induction tables as [|table tables IH]; intros acc; simpl.
  - rewrite Exists_nil. tauto.
  - rewrite IH, rows_inked, Exists_cons. tauto.
Qed.

Lemma tables_newline tables : forall acc,
  newline_ended acc -> newline_ended (foldl (foldl add_row) acc tables).
Proof.
  induction tables as [|table tables IH]; intros acc H; simpl; [done|].
  by apply IH, rows_newline.
Qed.

Lemma docx_full_text_inked paragraphs tables :
  inked (docx_full_text paragraphs tables) <->
  Exists inked paragraphs \/ Exists (Exists (Exists inked)) tables.
Proof.
  unfold docx_full_text. rewrite tables_inked, paragraphs_inked.
  assert (~ inked []) by (intros H; by apply H). tauto.
Qed.

Lemma docx_full_text_newline paragraphs tables :
  newline_ended (docx_full_text paragraphs tables).
Proof. apply tables_newline, paragraphs_newline. by left. Qed.

(** A DOCX gives chunks exactly when a paragraph or a table cell has a
    character that is not white space; every chunk is tagged [docx],
    carries the URL and has no page number. *)
Theorem docx_chunks_iff_some_text (file : content) (source_url : pystr)
    (paragraphs : list pystr) (tables : list (list (list pystr))) :
  docx_parts file = Ok (paragraphs, tables) ->
  exists cs,
    _process_docx file source_url = Ok cs /\
    (cs <> [] <->
     Exists inked paragraphs \/ Exists (Exists (Exists inked)) tables) /\
    forall c, c ∈ cs ->
      source_meta c !! "document_type" = Some (PStr (lit "docx")) /\
      source_meta c !! "source_url" = Some (PStr source_url) /\
      source_meta c !! "page" = None.
Proof.
  intros Hparts. unfold _process_docx. rewrite Hparts.
  pose proof (docx_full_text_inked paragraphs tables) as Hiff.
  destruct (truthy (strip (docx_full_text paragraphs tables))) eqn:E.
  - apply truthy_strip in E. eexists. split; [done|]. split.
    + split; [intros _; by apply Hiff|]. intros _ Hnil.
      apply (nonblank_text_has_chunks _ (docx_metadata source_url) E).
      by rewrite text_chunks_eq, Hnil.
    + intros c Hc.
      assert (forall key, key ∈ ["document_type"; "source_url"; "page"] ->
                key ∉ loop_keys) as Hfree.
      { intros key Hin Hloop. unfold loop_keys in Hloop.
        repeat (apply elem_of_cons in Hin as [->|Hin];
                [repeat (apply elem_of_cons in Hloop as [?|Hloop]; [done|]);
                 by apply elem_of_nil in Hloop|]).
        by apply elem_of_nil in Hin. }
      rewrite !(text_chunks_metadata _ _ c _ Hc) by (apply Hfree;
        repeat first [apply list_elem_of_here | apply list_elem_of_further]).
      unfold docx_metadata.
      split; [by rewrite lookup_insert_eq|].
      split; [by rewrite lookup_insert_ne, lookup_insert_eq by done|].
      by rewrite !lookup_insert_ne, lookup_empty by done.
  - exists []. split; [done|]. split.
    + split; [done|]. intros H. apply Hiff, truthy_strip in H. congruence.
    + intros c Hc. by apply elem_of_nil in Hc.
Qed.

(** The text assembled from a DOCX ends with a newline, and a text of at
    most [chunk_size] characters is not stripped: the single chunk of a
    short DOCX ends with white space. *)
Theorem short_docx_chunk_ends_with_newline (file : content)
    (source_url : pystr) (paragraphs : list pystr)
    (tables : list (list (list pystr))) :
  docx_parts file = Ok (paragraphs, tables) ->
  inked (docx_full_text paragraphs tables) ->
  len (docx_full_text paragraphs tables) <= chunk_size ->
  exists c,
    _process_docx file source_url = Ok [c] /\
    text c = docx_full_text paragraphs tables /\
    last (text c) = Some 10%N /\
    ~ trimmed (text c).
Proof.
  intros Hparts Hink Hshort. unfold _process_docx. rewrite Hparts.
  apply truthy_strip in Hink as Htruthy. rewrite Htruthy.
  exists (single_chunk (docx_full_text paragraphs tables)
            (docx_metadata source_url)).
  unfold text_chunks, _create_text_chunks.
  destruct (Z.leb_spec (len (docx_full_text paragraphs tables)) chunk_size);
    [|lia].
  simpl. split; [done|]. split; [done|].
  destruct (docx_full_text_newline paragraphs tables) as [Hnil|Hlast].
  { rewrite Hnil in Hink. by destruct Hink. }
  split; [done|]. intros [_ Htrim]. by specialize (Htrim _ Hlast).
Qed.

(** *** Dispatch on the file type *)

Lemma lit_pdf_docx : lit ".pdf" <> lit ".docx".
Proof. intros H. by apply lit_inj in H. Qed.

Lemma file_extension_cases (url content_type : pystr) :
  _get_file_extension url content_type = lit ".pdf" \/
  _get_file_extension url content_type = lit ".docx".
Proof.
  unfold _get_file_extension.
  repeat match goal with |- context [if ?b then _ else _] => destruct b end;
    tauto.
Qed.

(** [_get_file_extension] answers [.pdf] or [.docx] and nothing else: it
    answers [.docx] when the lowered path ends in [.docx], or when the path
    does not end in [.pdf] and the lowered content type holds [word] but
    not [pdf]; in every other case it answers [.pdf]. *)
Theorem file_extension_is_pdf_or_docx (url content_type : pystr) :
  let path := lower (url_path url) in
  let declared := lower content_type in
  (_get_file_extension url content_type = lit ".pdf" \/
   _get_file_extension url content_type = lit ".docx") /\
  (_get_file_extension url content_type = lit ".docx" <->
   endswith path (lit ".pdf") = false /\
   (endswith path (lit ".docx") = true \/
    contains declared (lit "pdf") = false /\
    contains declared (lit "word") = true)).
Proof.
  intros path declared. unfold _get_file_extension.
  fold path declared. pose proof lit_pdf_docx as Hne.
  destruct (endswith path (lit ".pdf")),
           (endswith path (lit ".docx")),
           (contains declared (lit "pdf")),
           (contains declared (lit "word"));
    (split; [tauto|]); split; intros H; try done;
    try (by destruct Hne); try tauto;
    try (destruct H as [? [?|[? ?]]]; done).
Qed.

(** The plain-text branch of [process_document_from_url] is never taken: a
    downloaded file goes to the DOCX parser when its extension is taken to
    be [.docx] and to the PDF parser otherwise, and what the parser raises
    is wrapped once more. *)
Theorem downloads_parse_as_pdf_or_docx (url : pystr) :
  process_document_from_url url =
  match http_get url with
  | Raise e => Raise (failed_document e)
  | Ok (file, content_type) =>
      match (if bool_decide
                  (_get_file_extension url content_type = lit ".docx")
             then _process_docx file url else _process_pdf file url) with
      | Ok chunks => Ok chunks
      | Raise e => Raise (failed_document e)
      end
  end.
Proof.
  unfold process_document_from_url.
  destruct (http_get url) as [[file content_type]|e]; simpl; [|done].
  destruct (file_extension_cases url content_type) as [E|E]; rewrite E.
  - rewrite bool_decide_eq_true_2 by done.
    by rewrite (bool_decide_eq_false_2 _ lit_pdf_docx).
  - rewrite (bool_decide_eq_false_2 (lit ".docx" = lit ".pdf"))
      by (intros H; by apply lit_pdf_docx).
    rewrite (bool_decide_eq_true_2 (lit ".docx" = lit ".docx")) by done.
    rewrite bool_decide_eq_true_2; [done|]. apply list_elem_of_here.
Qed.

End WithSource.

#[local] Existing Instance SampleSource.source.

(** A two-page PDF, a one-paragraph DOCX and a plain-text file. *)
Definition two_page_pdf : @content SampleSource.source :=
  lit "%PDF" ++ nl ++ lit "Clause 2".
Definition short_docx : @content SampleSource.source := lit "PK Clause 3".

Example plain_text_is_opened_as_pdf :
  process_document_from_url (lit "https://example.org/notes.txt") =
  Raise (lit "Failed to process document: Failed to process PDF: Failed to open file").
Proof. vm_compute. reflexivity. Qed.

Lemma pdf_chunks_carry_their_page_witness :
  pdf_page_texts two_page_pdf = Ok [lit "%PDF"; lit "Clause 2"] /\
  exists cs,
    _process_pdf two_page_pdf (lit "u") = Ok cs /\
    forall c, c ∈ cs ->
      exists (p : nat) page_text,
        [lit "%PDF"; lit "Clause 2"] !! p = Some page_text /\
        strip page_text <> [] /\
        source_meta c !! "page" = Some (PInt (Z.of_nat p + 1)) /\
        1 <= Z.of_nat p + 1 <= len [lit "%PDF"; lit "Clause 2"] /\
        source_meta c !! "total_pages"
        = Some (PInt (len [lit "%PDF"; lit "Clause 2"])) /\
        source_meta c !! "document_type" = Some (PStr (lit "pdf")) /\
        source_meta c !! "source_url" = Some (PStr (lit "u")).
Proof.
  split; [vm_compute; reflexivity|].
  apply (pdf_chunks_carry_their_page two_page_pdf (lit "u")).
  vm_compute; reflexivity.
Defined.

Lemma pdf_chunk_ids_repeat_across_pages_witness :
  pdf_page_texts two_page_pdf = Ok [lit "%PDF"; lit "Clause 2"] /\
  exists cs c c',
    _process_pdf two_page_pdf (lit "u") = Ok cs /\
    c ∈ cs /\ c' ∈ cs /\ c <> c' /\
    chunk_id c = lit "chunk_0" /\ chunk_id c' = lit "chunk_0" /\
    source_meta c !! "page" = Some (PInt (Z.of_nat 0 + 1)) /\
    source_meta c' !! "page" = Some (PInt (Z.of_nat 1 + 1)).
Proof.
  split; [vm_compute; reflexivity|].
  apply (pdf_chunk_ids_repeat_across_pages two_page_pdf (lit "u")
           [lit "%PDF"; lit "Clause 2"] 0 1 (lit "%PDF") (lit "Clause 2"));
    try (vm_compute; reflexivity); vm_compute; discriminate.
Defined.

Lemma docx_chunks_iff_some_text_witness :
  docx_parts short_docx = Ok ([short_docx], []) /\
  exists cs,
    _process_docx short_docx (lit "u") = Ok cs /\
    (cs <> [] <->
     Exists inked [short_docx] \/ Exists (Exists (Exists inked)) []) /\
    forall c, c ∈ cs ->
      source_meta c !! "document_type" = Some (PStr (lit "docx")) /\
      source_meta c !! "source_url" = Some (PStr (lit "u")) /\
      source_meta c !! "page" = None.
Proof.
  split; [vm_compute; reflexivity|].
  apply (docx_chunks_iff_some_text short_docx (lit "u")).
  vm_compute; reflexivity.
Defined.

Lemma short_docx_chunk_ends_with_newline_witness :
  docx_parts short_docx = Ok ([short_docx], []) /\
  inked (docx_full_text [short_docx] []) /\
  len (docx_full_text [short_docx] []) <= chunk_size /\
  exists c,
    _process_docx short_docx (lit "u") = Ok [c] /\
    text c = docx_full_text [short_docx] [] /\
    last (text c) = Some 10%N /\
    ~ trimmed (text c).
Proof.
  split; [vm_compute; reflexivity|].
  split; [vm_compute; discriminate|].
  split; [vm_compute; discriminate|].
  apply (short_docx_chunk_ends_with_newline short_docx (lit "u"));
    [vm_compute; reflexivity | vm_compute; discriminate
    | vm_compute; discriminate].
Defined.

End DocumentFilesProofs.

(** * Further properties of the services *)

(** ** Search results and the stored metadata *)

Module IndexExtras.
Import EmbeddingService IndexProofs.

Section WithBackend.
Context {B : Backend}.

(** The test of the search loop on one pair. *)
Definition kept (thr : score) (pair : score * Z) : bool :=
  negb (pair.2 =? -1) && score_ge pair.1 thr.

(** [r] is the stored dict at the position of [pair], with its score. *)
Definition result_of (metadata : list chunk_data) (pair : score * Z)
    (r : chunk_data) : Prop :=
  exists d, py_index metadata pair.2 = Ok d /\
            r = set_similarity_score d pair.1.

Lemma search_loop_aligned metadata thr pairs : forall results out,
  search_loop metadata thr pairs results = Ok out ->
  exists new,
    out = results ++ new /\
    Forall2 (result_of metadata)
      (filter (fun pair => kept thr pair = true) pairs) new.
Proof.
  induction pairs as [|[sc idx] pairs IH]; intros results out; simpl.
  - intros [= <-]. exists []. by rewrite app_nil_r.
  - rewrite filter_cons.
    change (negb (idx =? -1) && score_ge sc thr) with (kept thr (sc, idx)).
    destruct (decide (kept thr (sc, idx) = true)) as [Hkeep|Hdrop].
    + rewrite Hkeep.
      destruct (py_index metadata idx) as [d|e] eqn:Hd; simpl; [|done].
      intros Hrun. destruct (IH _ _ Hrun) as (new & -> & Hnew).
      exists (set_similarity_score d sc :: new).
      rewrite <- app_assoc. split; [done|].
      constructor; [|done]. by exists d.
    + apply not_true_is_false in Hdrop. rewrite Hdrop.
      intros Hrun. destruct (IH _ _ Hrun) as (new & -> & Hnew).
      by exists new.
Qed.


(** Python indexing: a position from 0 up is that position of the list, a
    negative one counts from the end. *)
Lemma py_index_position {A} (l : list A) (i : Z) (x : A) :
  py_index l i = Ok x ->
  (0 <= i /\ l !! Z.to_nat i = Some x) \/
  (i < 0 /\ 0 <= i + len l /\ l !! Z.to_nat (i + len l) = Some x).
Proof.
  unfold py_index. destruct (Z.ltb_spec i 0) as [Hneg|Hpos].
  - destruct (Z.ltb_spec (i + len l) 0); [done|].
    destruct (l !! _) eqn:E; [|done]. intros [= <-]. right. done.
  - destruct (Z.ltb_spec i 0); [lia|].
    destruct (l !! _) eqn:E; [|done]. intros [= <-]. left. done.
Qed.

Lemma py_index_0 {A} (l : list A) (x : A) :
  py_index l 0 = Ok x -> l !! 0%nat = Some x.
Proof.
  intros H. apply py_index_position in H as [[_ H]|[? _]]; [done|lia].
Qed.

(** The results of a search on an indexed service are, in order, the pairs
    of the first row of scores and positions whose position is not [-1] and
    whose score passes the threshold: each result is the stored dict at the
    position of its pair, with the score of that pair. *)
Theorem search_results_follow_positions (self : service) (query : pystr)
    (top_k : Z) (thr : score) (results : list chunk_data) :
  is_indexed self = true ->
  search_similar self query top_k thr = Ok results ->
  exists query_embedding scores indices scores0 indices0,
    embed_texts [query] = Ok query_embedding /\
    index_search (index self) query_embedding top_k = Ok (scores, indices) /\
    scores !! 0%nat = Some scores0 /\ indices !! 0%nat = Some indices0 /\
    Forall2 (result_of (chunks_metadata self))
      (filter (fun pair => kept thr pair = true) (zip scores0 indices0))
      results.
Proof.
  intros Hindexed. unfold search_similar. rewrite Hindexed. simpl.
  destruct (embed_texts [query]) as [qe|e]; simpl; [|done].
  destruct (index_search (index self) qe top_k) as [[S I]|e] eqn:Hs;
    simpl; [|done].
  destruct (py_index S 0) as [scores0|e] eqn:H0; simpl; [|done].
  destruct (py_index I 0) as [indices0|e] eqn:H1; simpl; [|done].
  intros Hrun. exists qe, S, I, scores0, indices0.
  split; [done|]. split; [done|].
  split; [by apply py_index_0|]. split; [by apply py_index_0|].
  destruct (search_loop_aligned _ _ _ _ _ Hrun) as (new & -> & Hnew). done.
Qed.

End WithBackend.

#[local] Existing Instance SampleBackend.backend.

Lemma search_results_follow_positions_witness :
  is_indexed sample_service = true /\
  search_similar sample_service (lit "which clause") 3 50
  = Ok [sample_result] /\
  exists query_embedding scores indices scores0 indices0,
    embed_texts [lit "which clause"] = Ok query_embedding /\
    index_search (index sample_service) query_embedding 3
    = Ok (scores, indices) /\
    scores !! 0%nat = Some scores0 /\ indices !! 0%nat = Some indices0 /\
    Forall2 (result_of (chunks_metadata sample_service))
      (filter (fun pair => kept 50 pair = true) (zip scores0 indices0))
      [sample_result].
Proof.
  split; [vm_compute; reflexivity|]. split; [vm_compute; reflexivity|].
  apply (search_results_follow_positions sample_service (lit "which clause")
           3 50 [sample_result]); vm_compute; reflexivity.
Defined.

End IndexExtras.

(** ** Batches of unequal length *)

Module AnswerExtras.
Import GeminiService AnswerProofs.

Section WithBackend.
Context {B : Backend}.

(** [zip] pairs the queries with the contexts up to the shorter list: with
    a dispatch that runs every task, the batch has as many answers as the
    shorter list has entries, each the answer to the query and the context
    at its position; the queries beyond are left without an answer. *)
Theorem batch_stops_at_shorter_list (queries contexts : list pystr)
    (completion : list nat) :
  (forall i, (i < Nat.min (length queries) (length contexts))%nat ->
             i ∈ completion) ->
  exists answers,
    generate_batch_answers queries contexts completion = Ok answers /\
    length answers = Nat.min (length queries) (length contexts) /\
    forall i query context,
      queries !! i = Some query -> contexts !! i = Some context ->
      exists answer,
        generate_answer query context = Ok answer /\
        answers !! i = Some answer.
Proof.
  intros Hall.
  rewrite batch_in_order by (intros i Hi; apply Hall;
                             by rewrite length_zip in Hi).
  eexists. split; [done|]. split.
  - by rewrite !length_fmap, length_zip.
  - intros i query context Hq Hc.
    assert (zip queries contexts !! i = Some (query, context)) as Hz.
    { apply lookup_zip_with_Some. by exists query, context. }
    rewrite !list_lookup_fmap, Hz. simpl.
    destruct (generate_answer_ok query context) as (a & -> & _).
    by exists a.
Qed.

End WithBackend.

#[local] Existing Instance SampleBackend.backend.

Lemma batch_stops_at_shorter_list_witness :
  (forall i,
     (i < Nat.min (length three_queries) (length [lit "c1"; lit "c2"]))%nat ->
     i ∈ [1; 0]%nat) /\
  exists answers,
    generate_batch_answers three_queries [lit "c1"; lit "c2"] [1; 0]%nat
    = Ok answers /\
    length answers
    = Nat.min (length three_queries) (length [lit "c1"; lit "c2"]) /\
    forall i query context,
      three_queries !! i = Some query ->
      [lit "c1"; lit "c2"] !! i = Some context ->
      exists answer,
        generate_answer query context = Ok answer /\
        answers !! i = Some answer.
Proof.
  assert (forall i,
     (i < Nat.min (length three_queries) (length [lit "c1"; lit "c2"]))%nat ->
     i ∈ [1; 0]%nat) as Hall.
  { intros i Hi. simpl in Hi.
    destruct i as [|[|i]]; [| |lia];
      repeat first [apply list_elem_of_here | apply list_elem_of_further]. }
  split; [exact Hall|].
  exact (batch_stops_at_shorter_list three_queries [lit "c1"; lit "c2"]
           [1; 0]%nat Hall).
Defined.

End AnswerExtras.

(** ** Health and statistics *)

Module Monitoring.
Import EmbeddingService.

Record health (T : Type) : Type := mkHealth {
  query_processor : bool;
  document_processor : bool;
  embedding_service : bool;
  gemini_service : bool;
  timestamp : T
}.
Arguments mkHealth {T}.
Arguments query_processor {T}.
Arguments document_processor {T}.
Arguments embedding_service {T}.
Arguments gemini_service {T}.
Arguments timestamp {T}.

Section WithBackend.
Context {B : Backend}.

(** [GeminiService.test_connection]: [bool(response.text)], and [False]
    when the call raises. *)
Definition test_connection : bool :=
  match generate_content (lit "Hello, test connection") with
  | Ok response_text => truthy response_text
  | Raise _ => false
  end.

(** [QueryProcessor.health_check]; [now] is [time.time()]. *)
Definition health_check {T} (es : service) (now : T) : health T :=
  {| query_processor := true;
     document_processor := true;
     embedding_service := is_indexed es;
     gemini_service := test_connection;
     timestamp := now |}.

Record performance_stats : Type := mkStats {
  max_context_chunks : Z;
  similarity_threshold : score;
  embedding_model : pystr;
  gemini_model : pystr;
  indexed_chunks : Z
}.

(** [QueryProcessor.get_performance_stats]; the two model names are
    attributes of the services. *)
Definition get_performance_stats (es : service)
    (model_name model : pystr) : performance_stats :=
  {| max_context_chunks := QueryProcessor.max_context_chunks;
     similarity_threshold := default_score_threshold;
     embedding_model := model_name;
     gemini_model := model;
     indexed_chunks := len (chunks_metadata es) |}.

End WithBackend.
End Monitoring.

(** ** The HTTP endpoint: [main.py] *)

Module Main.

(** What a dependency or a path operation gives: a value, or an
    [HTTPException] with its status code, detail and headers. *)
Inductive http (A : Type) : Type :=
| Returned (a : A)
| HTTPException (status_code : Z) (detail : pystr)
    (headers : list (pystr * pystr)).
Arguments Returned {A} a.
Arguments HTTPException {A} status_code detail headers.

(** [HTTPAuthorizationCredentials]: what [HTTPBearer] hands to
    [authenticate] when it accepts the [Authorization] header. *)
Record HTTPAuthorizationCredentials : Type := mkCredentials {
  scheme : pystr;
  credentials : pystr
}.

(** [security = HTTPBearer()] belongs to FastAPI: from the [Authorization]
    header of the request, if there is one, it gives the credentials or
    raises an [HTTPException] of its own. *)
Definition bearer : Type :=
  option pystr -> http HTTPAuthorizationCredentials.

Definition BEARER_TOKEN : pystr :=
  lit "c0df38f44acb385ecd42f8e0c02ee14acd6d145835643ee57acd84f79afeb798".

(** [authenticate], once [Depends(security)] has given its argument. *)
Definition authenticate (creds : HTTPAuthorizationCredentials) : http pystr :=
  if bool_decide (credentials creds <> BEARER_TOKEN) then
    HTTPException 401 (lit "Invalid authentication token")
      [(lit "WWW-Authenticate", lit "Bearer")]
  else Returned (credentials creds).

Section WithBackend.
Context {B : Backend}.

(** [POST /hackrx/run] with a body that is a well-formed [HackRxRequest]:
    FastAPI resolves [Depends(authenticate)], which first resolves
    [Depends(security)] on the [Authorization] header of the request, and
    calls [run_hackrx] only when neither raised. The result is the
    embedding service left behind and the response. *)
Definition run_hackrx (security : bearer) (es : EmbeddingService.service)
    (authorization : option pystr) (documents : pystr)
    (questions : list pystr) (completion : list nat)
    : EmbeddingService.service * http (list pystr) :=
  match security authorization with
  | HTTPException status_code detail headers =>
      (es, HTTPException status_code detail headers)
  | Returned creds =>
      match authenticate creds with
      | HTTPException status_code detail headers =>
          (es, HTTPException status_code detail headers)
      | Returned _ =>
          match QueryProcessor.process_request es documents questions
                  completion with
          | (es', Ok answers) => (es', Returned answers)
          | (es', Raise e) =>
              (es', HTTPException 500
                      (lit "Failed to process request: " ++ e) [])
          end
      end
  end.

End WithBackend.
End Main.

(** A stand-in for FastAPI's [HTTPBearer()]: the header is split at its
    first space into a scheme and the credentials; a header that is
    missing, or has no scheme or no credentials, is refused as
    [Not authenticated], a scheme other than [bearer] as
    [Invalid authentication credentials]. The status code of these two
    answers is FastAPI's choice; the stand-in uses 403. *)
Module SampleBearer.
Import Main.

Fixpoint partition_space (s scheme : pystr) : pystr * pystr :=
  match s with
  | [] => (scheme, [])
  | c :: s' => if N.eqb c space then (scheme, s')
               else partition_space s' (scheme ++ [c])
  end.

Definition ascii_lower (c : N) : N :=
  if (65 <=? c)%N && (c <=? 90)%N then (c + 32)%N else c.

Definition http_bearer : bearer := fun authorization =>
  match authorization with
  | None => HTTPException 403 (lit "Not authenticated") []
  | Some value =>
      let '(scheme, credentials) := partition_space value [] in
      if negb (truthy scheme && truthy credentials) then
        HTTPException 403 (lit "Not authenticated") []
      else if bool_decide (ascii_lower <$> scheme <> lit "bearer") then
        HTTPException 403 (lit "Invalid authentication credentials") []
      else Returned {| scheme := scheme; credentials := credentials |}
  end.

End SampleBearer.

Module ServiceExtras.
Import EmbeddingService QueryProcessor Monitoring Main.

Section WithBackend.
Context {B : Backend}.

(** A request that returns answers returns one per question. *)
Lemma process_request_answers es document_url questions completion answers :
  (process_request es document_url questions completion).2 = Ok answers ->
  length answers = length questions.
Proof.
  unfold process_request.
  destruct (_process_document document_url) as [chunks|e]; [|done].
  destruct (_index_chunks es chunks) as [es' [[]|e]]; simpl; [|done].
  unfold _process_questions_with_gemini.
  pose proof (PipelineProofs.retrieve_contexts_spec es' questions []) as Hctx.
  destruct (retrieve_contexts es' questions []) as [contexts|e]; simpl;
    [|done].
  destruct Hctx as (new & -> & Hnew). simpl.
  pose proof (Forall2_length _ _ _ Hnew) as Hlen.
  destruct (AnswerProofs.batch_length questions new completion Hlen)
    as (answers' & -> & Hlength).
  by intros [= <-].
Qed.

(** What a request raises always starts with the prefix of
    [process_request]. *)
Lemma process_request_error es document_url questions completion e :
  (process_request es document_url questions completion).2 = Raise e ->
  exists cause, e = failed_request cause.
Proof.
  unfold process_request.
  destruct (_process_document document_url) as [chunks|e'];
    [|intros [= <-]; eauto].
  destruct (_index_chunks es chunks) as [es' [[]|e']]; simpl;
    [|intros [= <-]; eauto].
  destruct (_process_questions_with_gemini es' questions completion)
    as [answers|e']; simpl; [done|intros [= <-]; eauto].
Qed.

(** *** The service a request leaves behind *)

(** A request whose document cannot be fetched or parsed leaves the
    service as it was. A request whose indexing raises leaves no chunk
    indexed, while the health check reports the embedding service as it did
    before. A request whose document is indexed leaves the new chunks
    indexed and the embedding service healthy, whether or not it then
    raises while answering. *)
Theorem request_leaves_service {T} (es : service) (document_url : pystr)
    (questions : list pystr) (completion : list nat) (now : T)
    (model_name model : pystr) :
  let after := (process_request es document_url questions completion).1 in
  match _process_document document_url with
  | Raise _ => after = es
  | Ok chunks =>
      match (_index_chunks es chunks).2 with
      | Raise _ =>
          indexed_chunks (get_performance_stats after model_name model) = 0 /\
          embedding_service (health_check after now) = is_indexed es
      | Ok _ =>
          indexed_chunks (get_performance_stats after model_name model)
          = len chunks /\
          embedding_service (health_check after now) = true
      end
  end.
Proof.
  cbv zeta. unfold process_request.
  destruct (_process_document document_url) as [chunks|e]; [|done].
  unfold _index_chunks, index_chunks.
  destruct (embed_texts (text <$> chunks)) as [embeddings|e]; simpl;
    [|done].
  destruct (index_add _ embeddings) as [index'|e]; simpl; [|done].
  destruct (_process_questions_with_gemini _ questions completion);
    simpl; unfold len; by rewrite length_fmap.
Qed.

(** *** Responses of the endpoint *)

(** A request that [HTTPBearer] refuses is answered with the exception of
    [HTTPBearer] and does not touch the service. A request it lets through
    with credentials other than [BEARER_TOKEN] is answered 401
    [Invalid authentication token] with the header
    [WWW-Authenticate: Bearer], and does not touch the service either. A
    request with the right token is answered with one answer per question,
    or with status 500 and a detail that carries the prefix
    [Failed to process request: ] twice, once from [process_request] and
    once from the endpoint. *)
Theorem run_hackrx_responses (security : bearer) (es : service)
    (authorization : option pystr) (documents : pystr)
    (questions : list pystr) (completion : list nat) :
  let response :=
    run_hackrx security es authorization documents questions completion in
  match security authorization with
  | HTTPException status_code detail headers =>
      response = (es, HTTPException status_code detail headers)
  | Returned creds =>
      (credentials creds <> BEARER_TOKEN /\
       response =
       (es, HTTPException 401 (lit "Invalid authentication token")
              [(lit "WWW-Authenticate", lit "Bearer")]))
      \/
      (credentials creds = BEARER_TOKEN /\
       ((exists answers,
           response.2 = Returned answers /\
           length answers = length questions) \/
        (exists cause,
           response.2 =
           HTTPException 500
             (lit "Failed to process request: " ++ failed_request cause)
             [])))
  end.
Proof.
  cbv zeta. unfold run_hackrx.
  destruct (security authorization) as [creds|status_code detail headers];
    [|reflexivity].
  unfold authenticate.
  destruct (decide (credentials creds = BEARER_TOKEN)) as [Heq|Hne].
  - right. split; [done|].
    rewrite bool_decide_eq_false_2 by (intros H; by apply H).
    pose proof (process_request_answers es documents questions completion)
      as Hanswers.
    pose proof (process_request_error es documents questions completion)
      as Herror.
    destruct (process_request es documents questions completion)
      as [es' [answers|e]]; simpl in *.
    + left. exists answers. split; [done|]. by apply Hanswers.
    + right. destruct (Herror e eq_refl) as [cause ->]. by exists cause.
  - left. split; [done|]. by rewrite bool_decide_eq_true_2.
Qed.

End WithBackend.

Import SampleBearer.

(** The sample pipeline behind the stand-in for [HTTPBearer], with
    documents from the sample source. A request without an
    [Authorization] header, or with an empty token, is refused before
    [authenticate] runs. *)
Example request_without_token :
  (run_hackrx (B := with_source SampleBackend.backend SampleSource.source)
     http_bearer init None (lit "https://example.org/notes.txt")
     [lit "coverage"] [0%nat]).2 =
  HTTPException 403 (lit "Not authenticated") [].
Proof. vm_compute. reflexivity. Qed.

Example request_with_empty_token :
  (run_hackrx (B := with_source SampleBackend.backend SampleSource.source)
     http_bearer init (Some (lit "Bearer "))
     (lit "https://example.org/notes.txt") [lit "coverage"] [0%nat]).2 =
  HTTPException 403 (lit "Not authenticated") [].
Proof. vm_compute. reflexivity. Qed.

(** A token other than [BEARER_TOKEN] is refused by [authenticate]. *)
Example request_with_wrong_token :
  (run_hackrx (B := with_source SampleBackend.backend SampleSource.source)
     http_bearer init (Some (lit "Bearer letmein"))
     (lit "https://example.org/notes.txt") [lit "coverage"] [0%nat]).2 =
  HTTPException 401 (lit "Invalid authentication token")
    [(lit "WWW-Authenticate", lit "Bearer")].
Proof. vm_compute. reflexivity. Qed.

(** With the right token, a request for a plain-text file is answered 500,
    with the message of every layer it crossed. *)
Example plain_text_request :
  (run_hackrx (B := with_source SampleBackend.backend SampleSource.source)
     http_bearer init (Some (lit "Bearer " ++ BEARER_TOKEN))
     (lit "https://example.org/notes.txt")
     [lit "coverage"] [0%nat]).2 =
  HTTPException 500
    (lit "Failed to process request: Failed to process request: Failed to process document: Failed to process PDF: Failed to open file") [].
Proof. vm_compute. reflexivity. Qed.

End ServiceExtras.
